(** * Text preparation for speech synthesis: [sanitize_and_prepare_text_for_llm]

    A shallow embedding of the text chunker of [main.py] and the properties
    of its three steps: character normalization, sentence splitting and
    greedy chunk packing.

    Python strings are sequences of Unicode code points, and [len] counts
    code points; a string is therefore a list of code points here.  The
    bounds [min_chars] and [max_chars] are Python integers, hence [Z]. *)

From Stdlib Require Import Ascii String.
From Stdlib Require DecimalString.
From Stdlib Require Import List ZArith NArith Bool Lia.
Import ListNotations.

Local Open Scope Z_scope.

(** ** Strings as sequences of code points *)

Definition char := N.
Definition str := list char.

Definition len (s : str) : Z := Z.of_nat (length s).

Definition SP : char := 32%N.   (* ' '  *)
Definition NL : char := 10%N.   (* '\n' *)
Definition CR : char := 13%N.   (* '\r' *)
Definition TAB : char := 9%N.   (* '\t' *)

Definition is_empty (s : str) : bool :=
  match s with [] => true | _ => false end.

Module Py.

(** *** Whitespace, as [str.strip] and the regex class [\s] see it

    Both go through CPython's [Py_UNICODE_ISSPACE]: the ASCII table
    (0x09-0x0D, 0x1C-0x1F, 0x20) and the Unicode white-space code points. *)

Definition isspace (c : char) : bool :=
  (((9 <=? c) && (c <=? 13)) || ((28 <=? c) && (c <=? 32))
   || (c =? 0x85) || (c =? 0xA0) || (c =? 0x1680)
   || ((0x2000 <=? c) && (c <=? 0x200A))
   || (c =? 0x2028) || (c =? 0x2029) || (c =? 0x202F)
   || (c =? 0x205F) || (c =? 0x3000))%N.

Fixpoint lstrip (s : str) : str :=
  match s with
  | [] => []
  | c :: s' => if isspace c then lstrip s' else s
  end.

Definition rstrip (s : str) : str := rev (lstrip (rev s)).

(** [s.strip()] *)
Definition strip (s : str) : str := lstrip (rstrip s).

(** *** [s.replace(old, new)]

    All non-overlapping occurrences of [old], found left to right, are
    replaced.  [skip] counts the characters of a matched occurrence that
    are still to be passed over.  With an empty [old], Python puts [new]
    before every character and at the end. *)

Fixpoint startswith (p s : str) : bool :=
  match p, s with
  | [], _ => true
  | _ :: _, [] => false
  | a :: p', b :: s' => (a =? b)%N && startswith p' s'
  end.

Fixpoint replace_from (old new : str) (skip : nat) (s : str) : str :=
  match s with
  | [] => []
  | c :: s' =>
      match skip with
      | S k => replace_from old new k s'
      | O =>
          if startswith old s
          then new ++ replace_from old new (length old - 1) s'
          else c :: replace_from old new 0 s'
      end
  end.

Definition replace (old new s : str) : str :=
  match old with
  | [] => new ++ flat_map (fun c => c :: new) s
  | _ :: _ => replace_from old new 0 s
  end.

(** *** [re.sub(r'[^\x20-\x7E\n\r\t]', '', s)]

    Every character outside the class is deleted, so the result keeps
    exactly the characters of the complemented class. *)

Definition in_kept_class (c : char) : bool :=
  (((0x20 <=? c) && (c <=? 0x7E)) || (c =? NL) || (c =? CR) || (c =? TAB))%N.

Definition sub_remove_invalid (s : str) : str := filter in_kept_class s.

(** *** [re.sub(r'\s+', ' ', s)]

    Each maximal run of white space becomes one space; [in_run] tells
    whether the previous character belonged to a run already replaced. *)

Fixpoint sub_ws_from (in_run : bool) (s : str) : str :=
  match s with
  | [] => []
  | c :: s' =>
      if isspace c
      then (if in_run then sub_ws_from true s' else SP :: sub_ws_from true s')
      else c :: sub_ws_from false s'
  end.

Definition sub_collapse_ws (s : str) : str := sub_ws_from false s.

(** *** [re.split(r'(?<=[.!?])\s+', s)]

    A match starts at a white-space character whose predecessor is one of
    [.], [!], [?] and extends over the whole run of white space; matches
    are searched left to right and the pieces between them are returned,
    an empty string giving the single piece [""].  The scanner remembers
    what lies just before the current position. *)

Definition is_terminal (c : char) : bool :=
  ((c =? 46) || (c =? 33) || (c =? 63))%N.   (* '.', '!', '?' *)

Inductive lookbehind := Plain | AfterTerminal | InDelimiter.

Definition cons_piece (c : char) (ps : list str) : list str :=
  match ps with
  | [] => [[c]]
  | p :: ps' => (c :: p) :: ps'
  end.

Fixpoint split_from (lb : lookbehind) (s : str) : list str :=
  match s with
  | [] => [[]]
  | c :: s' =>
      if isspace c then
        match lb with
        | AfterTerminal => [] :: split_from InDelimiter s'
        | InDelimiter => split_from InDelimiter s'
        | Plain => cons_piece c (split_from Plain s')
        end
      else
        cons_piece c
          (split_from (if is_terminal c then AfterTerminal else Plain) s')
  end.

Definition split_sentences (s : str) : list str := split_from Plain s.

(** *** [sep.join(parts)] *)

Fixpoint join (sep : str) (parts : list str) : str :=
  match parts with
  | [] => []
  | [p] => p
  | p :: ps => p ++ sep ++ join sep ps
  end.

End Py.

(** ** Step 1: normalization *)

(** The dictionary literal of the source, in insertion order.  Its first
    key is the straight double quote (mapped to itself); its second key is
    the seven-character string [: "'", ] that the triple-quote token
    [''' ... '''] of the literal delimits, mapped to the apostrophe; then
    em dash, en dash and the non-breaking space. *)
Definition replacements : list (str * str) :=
  [ ([34], [34]);
    ([58; 32; 34; 39; 34; 44; 32], [39]);
    ([0x2014], [45]);
    ([0x2013], [45]);
    ([0xA0], [32]) ]%N.

Definition apply_replacements (text : str) : str :=
  fold_left (fun t '(old, new) => Py.replace old new t) replacements text.

Definition normalize (text : str) : str :=
  let text := apply_replacements text in
  let text := Py.sub_remove_invalid text in
  Py.strip (Py.sub_collapse_ws text).

(** ** Step 3: greedy packing *)

Record acc := { lines : list str; current : str }.

Definition pack_step (min_chars max_chars : Z) (st : acc) (sentence : str) : acc :=
  if is_empty (Py.strip sentence) then st
  else if len (current st) + len sentence + 1 <=? max_chars then
    {| lines := lines st; current := current st ++ sentence ++ [SP] |}
  else if min_chars <=? len (Py.strip (current st)) then
    {| lines := lines st ++ [Py.strip (current st)];
       current := sentence ++ [SP] |}
  else
    {| lines := lines st; current := current st ++ sentence ++ [SP] |}.

Definition pack (min_chars max_chars : Z) (sentences : list str) : acc :=
  fold_left (pack_step min_chars max_chars) sentences
            {| lines := []; current := [] |}.

(** The list [lines] when the function reaches its [return]. *)
Definition chunks (text : str) (min_chars max_chars : Z) : list str :=
  let sentences := Py.split_sentences (normalize text) in
  let st := pack min_chars max_chars sentences in
  if is_empty (Py.strip (current st)) then lines st
  else lines st ++ [Py.strip (current st)].

Definition sanitize_and_prepare_text_for_llm
           (text : str) (min_chars max_chars : Z) : str :=
  Py.join [NL] (chunks text min_chars max_chars).

(** ** The packing loop with its branches recorded

    Each sentence that enters an accumulator is tagged with the branch of
    the loop body that put it there: [Fit] (line 43, the candidate length
    is within [max_chars]), [Flush] (line 47, the previous accumulator was
    emitted and the sentence starts a new one) or [Force] (line 49, the
    sentence overflows but the accumulator is still under [min_chars]).
    A group is the tagged content of one accumulator. *)

Inductive branch := Fit | Flush | Force.

Definition entry := (branch * str)%type.
Definition group := list entry.

Definition sentences_of (g : group) : list str := map snd g.

(** The accumulator string built from a group: every sentence followed by
    one space. *)
Definition text_of (g : group) : str := flat_map (fun e => snd e ++ [SP]) g.

(** What [lines.append(current.strip())] pushes for a group. *)
Definition chunk_text (g : group) : str := Py.strip (text_of g).

Record tacc := { closed : list group; open : group }.

Definition trace_step (min_chars max_chars : Z) (st : tacc) (sentence : str) : tacc :=
  if is_empty (Py.strip sentence) then st
  else if len (text_of (open st)) + len sentence + 1 <=? max_chars then
    {| closed := closed st; open := open st ++ [(Fit, sentence)] |}
  else if min_chars <=? len (Py.strip (text_of (open st))) then
    {| closed := closed st ++ [open st]; open := [(Flush, sentence)] |}
  else
    {| closed := closed st; open := open st ++ [(Force, sentence)] |}.

Definition trace (min_chars max_chars : Z) (sentences : list str) : tacc :=
  fold_left (trace_step min_chars max_chars) sentences
            {| closed := []; open := [] |}.

Definition erase (t : tacc) : acc :=
  {| lines := map chunk_text (closed t); current := text_of (open t) |}.

(** The groups behind the emitted chunks, the last being the one flushed
    after the loop. *)
Definition groups (text : str) (min_chars max_chars : Z) : list group :=
  let t := trace min_chars max_chars (Py.split_sentences (normalize text)) in
  if is_empty (chunk_text (open t)) then closed t else closed t ++ [open t].

(** The groups emitted inside the loop. *)
Definition loop_groups (text : str) (min_chars max_chars : Z) : list group :=
  closed (trace min_chars max_chars (Py.split_sentences (normalize text))).

Definition tag_is (b : branch) (e : entry) : bool :=
  match b, fst e with
  | Fit, Fit | Flush, Flush | Force, Force => true
  | _, _ => false
  end.

(** A group that received a sentence through the force-merge branch. *)
Definition forced (g : group) : bool := existsb (tag_is Force) g.

(** A group all of whose sentences came through the fitting branch. *)
Definition all_fit (g : group) : bool := forallb (tag_is Fit) g.

(** The sentences of Step 2 that the loop does not skip. *)
Definition nonblank (s : str) : bool := negb (is_empty (Py.strip s)).

Definition sentences (text : str) : list str :=
  filter nonblank (Py.split_sentences (normalize text)).

(** ** Shapes of strings *)

Definition printable (c : char) : bool := ((0x20 <=? c) && (c <=? 0x7E))%N.

(** [scan prev_ws s] runs over [s] and fails on a white-space character
    that follows another one; otherwise it tells whether [s] ended in
    white space ([prev_ws] when [s] is empty). *)
Fixpoint scan (prev_ws : bool) (s : str) : option bool :=
  match s with
  | [] => Some prev_ws
  | c :: s' =>
      if Py.isspace c then (if prev_ws then None else scan true s')
      else scan false s'
  end.

(** Non-empty, no white space at either end, no two adjacent white-space
    characters. *)
Definition tidy (s : str) : Prop := scan true s = Some false.

(** [old] occurs nowhere in [s]. *)
Fixpoint absent (old s : str) : bool :=
  match s with
  | [] => true
  | _ :: s' => negb (Py.startswith old s) && absent old s'
  end.

(** The scanner state agrees with what [scan] knows of the previous
    character. *)
Definition agrees (lb : Py.lookbehind) (prev_ws : bool) : Prop :=
  match lb with
  | Py.InDelimiter => prev_ws = true
  | Py.AfterTerminal => prev_ws = false
  | Py.Plain => True
  end.

(** What the loop body has checked when it takes branch [b] for sentence
    [s] while the accumulator holds [pre].  The flush branch tests the
    accumulator it emits; for the group it starts, it is the first entry. *)
Definition branch_taken (min_chars max_chars : Z)
           (pre : group) (b : branch) (s : str) : Prop :=
  match b with
  | Fit => len (text_of pre) + len s + 1 <= max_chars
  | Flush => pre = []
  | Force => max_chars < len (text_of pre) + len s + 1
             /\ len (chunk_text pre) < min_chars
  end.

Fixpoint well_tagged_from (min_chars max_chars : Z) (pre g : group) : Prop :=
  match g with
  | [] => True
  | e :: g' =>
      branch_taken min_chars max_chars pre (fst e) (snd e)
      /\ well_tagged_from min_chars max_chars (pre ++ [e]) g'
  end.

Definition well_tagged (min_chars max_chars : Z) (g : group) : Prop :=
  well_tagged_from min_chars max_chars [] g.

(** Characters that Step 1 deletes or turns into white space that is then
    stripped: white space and everything outside the kept class, the two
    dashes apart (they become hyphens). *)
Definition removable (c : char) : bool :=
  (Py.isspace c || negb (Py.in_kept_class c))
  && negb (c =? 0x2014)%N && negb (c =? 0x2013)%N.

(** An accumulator that never took the force-merge branch is empty,
    within [max_chars], or a single sentence put there by the flush
    branch that is too long by itself. *)
Definition bounded (max_chars : Z) (g : group) : Prop :=
  forced g = false ->
  g = [] \/ len (text_of g) <= max_chars
  \/ exists s, g = [(Flush, s)] /\ max_chars < len s + 1.

(** [run lb s] scans [s] like [Py.split_from] and fails where a delimiter
    would be matched; otherwise it gives the scanner state after [s]. *)
Fixpoint run (lb : Py.lookbehind) (s : str) : option Py.lookbehind :=
  match s with
  | [] => Some lb
  | c :: s' =>
      if Py.isspace c then
        match lb with
        | Py.Plain => run Py.Plain s'
        | _ => None
        end
      else run (if Py.is_terminal c then Py.AfterTerminal else Py.Plain) s'
  end.

(** [s] put in front of the first piece. *)
Definition prepend (s : str) (ps : list str) : list str :=
  match ps with
  | [] => [s]
  | p :: ps' => (s ++ p) :: ps'
  end.

(** Pieces as the splitter leaves them: none holds a delimiter and each
    one that is followed by another ends in a terminal mark. *)
Fixpoint chained (lb : Py.lookbehind) (ps : list str) : Prop :=
  match ps with
  | [] => True
  | p :: ps' =>
      match run lb p with
      | None => False
      | Some st => (ps' = [] \/ st = Py.AfterTerminal)
                   /\ chained Py.InDelimiter ps'
      end
  end.

Fixpoint well_split (ps : list str) : Prop :=
  match ps with
  | [] => True
  | p :: ps' =>
      match ps' with
      | [] => run Py.Plain p <> None
      | _ :: _ => run Py.Plain p = Some Py.AfterTerminal
      end
      /\ well_split ps'
  end.

(** A chunk that is not empty and holds no newline. *)
Definition solid (p : str) : Prop := p <> [] /\ ~ In NL p.

(** ** Writing test inputs *)

(** ASCII literals as code-point lists. *)
Definition of_string (s : string) : str :=
  map N_of_ascii (list_ascii_of_string s).

Definition DQUOTE : char := 34%N.
Definition LDQUO : char := 0x201C%N.  (* left curly double quote *)
Definition RDQUO : char := 0x201D%N.  (* right curly double quote *)
Definition EM_DASH : char := 0x2014%N.
Definition BEL : char := 7%N.
Definition VT : char := 11%N.

(** ["She said \u201Chello\u201D"] *)
Definition she_said_curly : str :=
  of_string "She said "%string ++ [LDQUO] ++ of_string "hello"%string ++ [RDQUO].

(** [She said "hello"], with straight quotes *)
Definition she_said_straight : str :=
  of_string "She said "%string ++ [DQUOTE] ++ of_string "hello"%string ++ [DQUOTE].

(** The second key of [replacements]. *)
Definition garbled_key : str := [58; 32; 34; 39; 34; 44; 32]%N.

(** [: ": "'", ", x]: the key wrapped in the beginning and the end of
    another copy of itself. *)
Definition nested_key : str :=
  [58; 32; 34]%N ++ garbled_key ++ [34; 44; 32]%N ++ of_string "x"%string.

Definition short_long_short : str :=
  of_string "Aaaa. Bbbbbbbbbbbbbbbbbbbb. Cc."%string.

Definition long_sentence : str := of_string "Bbbbbbbbbbbbbbbbbbbb."%string.

Definition hi : str := of_string "Hi."%string.

Definition abcd : str := of_string "A. B. C. D."%string.

(** Scenario 4 of the specification: [A. B. C.] four times. *)
Definition abc_four_times : str :=
  of_string "A. B. C. A. B. C. A. B. C. A. B. C."%string.

Definition blank_input : str := [SP; TAB; BEL; NL; 0x3000; VT; CR; 0x1F600]%N.

(** ** Further vocabulary for the chunker *)

(** The accumulator string for a list of sentences: each one followed by
    a space, as [current += sentence + " "] builds it. *)
Definition packed (ps : list str) : str := flat_map (fun p => p ++ [SP]) ps.

Definition dash_to_hyphen (c : char) : char :=
  if ((c =? 0x2014) || (c =? 0x2013))%N then 45%N else c.

Definition newline_to_space (c : char) : char :=
  if (c =? NL)%N then SP else c.

(** ** The command line around the chunker: [read_file], [main] and the
    script body

    The program prints, opens a file, loads a speech model and asks it to
    write audio.  A run is modelled by the list of these events, in order,
    and by how it ends; everything the outside answers is read from a
    [world]. *)

Module Cli.

(** Exceptions, as far as the handlers of the source tell them apart.
    [IOError] is Python's alias of [OSError] and stands for every
    [OSError] other than [FileNotFoundError]; [OtherException] stands for
    an [Exception] outside [OSError] (a decoding error, say).  The string
    is what [str(e)] gives. *)
Inductive exn :=
  | FileNotFoundError (msg : str)
  | IOError (msg : str)
  | KeyboardInterrupt
  | OtherException (msg : str).

Inductive outcome (A : Type) :=
  | Returns (a : A)
  | Raises (e : exn).
Arguments Returns {A} a.
Arguments Raises {A} e.

Inductive event :=
  | Print (line : str)
  | LoadModel (name device : str)
  | TtsToFile (text file_path : str).

Record world := {
  (* torch.cuda.is_available() *)
  cuda_is_available : bool;
  (* open(path, 'r', encoding='utf-8') and f.read() *)
  open_and_read : str -> outcome str;
  (* TTS(name).to(device) *)
  load_model : str -> str -> outcome unit;
  (* tts.tts_to_file(text=..., file_path=...) *)
  tts_to_file : str -> str -> outcome unit
}.

(** A computation: the events so far and the result or the exception. *)
Definition M (A : Type) : Type := (list event * outcome A)%type.

Definition ret {A} (a : A) : M A := ([], Returns a).

Definition bind {A B} (m : M A) (k : A -> M B) : M B :=
  match m with
  | (t, Returns a) => let (t', r) := k a in (t ++ t', r)
  | (t, Raises e) => (t, Raises e)
  end.

Notation "x <- m ;; k" := (bind m (fun x => k))
  (at level 61, m at next level, right associativity).
Notation "m ;; k" := (bind m (fun _ => k))
  (at level 61, right associativity).

Definition print (line : str) : M unit := ([Print line], Returns tt).

(** A call that leaves the program: the event, then what the world
    answers. *)
Definition call {A} (ev : event) (answer : outcome A) : M A := ([ev], answer).

Definition lift {A} (o : outcome A) : M A := ([], o).

(** [try: body except <classes> as e: handler] *)
Definition try_except {A} (body : M A) (caught : exn -> bool)
           (handler : exn -> M A) : M A :=
  match body with
  | (t, Raises e) =>
      if caught e then let (t', r) := handler e in (t ++ t', r)
      else (t, Raises e)
  | done => done
  end.

Definition message (e : exn) : str :=
  match e with
  | FileNotFoundError msg | IOError msg | OtherException msg => msg
  | KeyboardInterrupt => []
  end.

(** [except (FileNotFoundError, IOError)] *)
Definition is_os_error (e : exn) : bool :=
  match e with
  | FileNotFoundError _ | IOError _ => true
  | _ => false
  end.

(** [str(n)] for a length. *)
Definition decimal (n : Z) : str :=
  of_string (DecimalString.NilZero.string_of_uint (N.to_uint (Z.to_N n))).

(** [s.split(sep)] for a one-character separator. *)
Fixpoint split_on (sep : char) (s : str) : list str :=
  match s with
  | [] => [[]]
  | c :: s' =>
      if (c =? sep)%N then [] :: split_on sep s'
      else Py.cons_piece c (split_on sep s')
  end.

Definition DOT : char := 46%N.

Definition read_file (w : world) (file_path : str) : outcome str :=
  match open_and_read w file_path with
  | Returns content => Returns content
  | Raises (FileNotFoundError _) =>
      Raises (FileNotFoundError
                (of_string "File not found: "%string ++ file_path))
  | Raises (IOError msg) =>
      Raises (IOError (of_string "Error reading file "%string ++ file_path
                       ++ of_string ": "%string ++ msg))
  | Raises e => Raises e
  end.

Definition indent : str := of_string "        "%string.

(** The triple-quoted example text of [main], line breaks and indentation
    included; its first line ends in a space. *)
Definition example_text : str :=
  [NL] ++ indent
  ++ of_string "This is a longer English text to demonstrate the text-to-speech capabilities. "%string
  ++ [NL] ++ indent
  ++ of_string "The system can handle multiple sentences and will generate natural-sounding speech."%string
  ++ [NL] ++ indent
  ++ of_string "You can use this script to convert any text file to speech, or run it without arguments to hear this example."%string
  ++ [NL] ++ indent
  ++ of_string "The text processing function will automatically split long texts into optimal chunks for better speech synthesis."%string
  ++ [NL] ++ indent.

Definition model_name : str :=
  of_string "tts_models/en/ljspeech/tacotron2-DDC"%string.

(** The first [if] of [main]: the content and the output name when the
    file was read, nothing when [file_path] is falsy or was reset to
    [None] by the handler. *)
Definition from_file (w : world) (file_path : option str)
  : M (option (str * str)) :=
  match file_path with
  | Some path =>
      if is_empty path then ret None
      else
        try_except
          (text_content <- lift (read_file w path) ;;
           let out_name := hd [] (split_on DOT path) in
           print (of_string "Processing file: "%string ++ path) ;;
           ret (Some (text_content, out_name)))
          is_os_error
          (fun e =>
             print (of_string "Error: "%string ++ message e) ;;
             print (of_string "Using example text instead..."%string) ;;
             ret None)
  | None => ret None
  end.

Definition main (w : world) (file_path : option str) : M unit :=
  let device :=
    if cuda_is_available w then of_string "cuda"%string
    else of_string "cpu"%string in
  print (of_string "Using device: "%string ++ device) ;;
  print (of_string "Loading TTS model..."%string) ;;
  call (LoadModel model_name device) (load_model w model_name device) ;;
  read <- from_file w file_path ;;
  source <- match read with
            | Some found => ret found
            | None =>
                print (of_string "Using example text..."%string) ;;
                ret (example_text, of_string "example_output"%string)
            end ;;
  let (text_content, out_name) := source : str * str in
  let processed_text :=
    sanitize_and_prepare_text_for_llm text_content 100 300 in
  if is_empty processed_text then
    print (of_string "Error: No content to process"%string)
  else
    print (of_string "Processed text length: "%string
           ++ decimal (len processed_text)
           ++ of_string " characters"%string) ;;
    let output_file := out_name ++ of_string ".wav"%string in
    print (of_string "Generating speech audio..."%string) ;;
    call (TtsToFile processed_text output_file)
         (tts_to_file w processed_text output_file) ;;
    print (of_string "Audio saved to: "%string ++ output_file).

(** The body under [if __name__ == "__main__"]: what a run of the script
    does, given [sys.argv]. *)
Definition script (w : world) (argv : list str) : list event :=
  let run :=
    match argv with
    | _ :: file_path :: _ => main w (Some file_path)
    | _ =>
        print (of_string "No file provided. Using example text..."%string) ;;
        main w None
    end in
  match run with
  | (t, Returns _) => t
  | (t, Raises KeyboardInterrupt) =>
      t ++ [Print ([NL] ++ of_string "Operation cancelled by user."%string)]
  | (t, Raises e) =>
      t ++ [Print (of_string "An error occurred: "%string ++ message e)]
  end.

(** The synthesis requests of a run: text and file name. *)
Fixpoint requests (t : list event) : list (str * str) :=
  match t with
  | [] => []
  | TtsToFile text file_path :: t' => (text, file_path) :: requests t'
  | _ :: t' => requests t'
  end.

(** The device [main] settles on. *)
Definition device_name (w : world) : str :=
  if cuda_is_available w then of_string "cuda"%string
  else of_string "cpu"%string.

(** The text and the output name [main] settles on, when it gets that
    far. *)
Definition settled (w : world) (file_path : option str)
           (text_content out_name : str) : Prop :=
  (text_content = example_text
   /\ out_name = of_string "example_output"%string)
  \/ (exists path, file_path = Some path /\ path <> []
                   /\ open_and_read w path = Returns text_content
                   /\ out_name = hd [] (split_on DOT path)).

Definition chosen (read : option (str * str)) : str * str :=
  match read with
  | Some found => found
  | None => (example_text, of_string "example_output"%string)
  end.

(** Worlds for trying the program: no GPU, a model that loads and
    writes, and one answer for every path. *)
Definition world_answering (answer : outcome str) : world :=
  {| cuda_is_available := false;
     open_and_read := fun _ => answer;
     load_model := fun _ _ => Returns tt;
     tts_to_file := fun _ _ => Returns tt |}.

Definition missing_file_world : world :=
  world_answering
    (Raises (FileNotFoundError (of_string "No such file or directory"%string))).

Definition story_world : world := world_answering (Returns short_long_short).

Definition blank_world : world := world_answering (Returns blank_input).

Definition binary_world : world :=
  world_answering (Raises (OtherException (of_string "invalid start byte"%string))).

End Cli.

Ltac char_facts :=
  repeat match goal with
         | H : _ = true |- _ =>
             first [ apply andb_true_iff in H; destruct H
                   | apply orb_true_iff in H; destruct H
                   | apply N.leb_le in H
                   | apply N.eqb_eq in H ]
         | H : _ = false |- _ =>
             first [ apply orb_false_iff in H; destruct H
                   | apply N.leb_gt in H
                   | apply N.eqb_neq in H ]
         end.

(** ** Properties *)

(** *** Scenarios of the specification *)

Example scenario2 :
  sanitize_and_prepare_text_for_llm (of_string "Hello world."%string) 100 300
  = of_string "Hello world."%string.
Proof. vm_compute. reflexivity. Qed.

Example scenario5 :
  normalize (of_string "well"%string ++ [EM_DASH] ++ of_string "actually"%string)
  = of_string "well-actually"%string.
Proof. vm_compute. reflexivity. Qed.

Example scenario6 :
  normalize (of_string "a"%string ++ [BEL; TAB; SP; VT] ++ of_string "b   c"%string ++ [NL])
  = of_string "a b c"%string.
Proof. vm_compute. reflexivity. Qed.

Example scenario4 :
  chunks (of_string "A. B. C. A. B. C. A. B. C. A. B. C."%string) 5 10
  = map of_string ["A. B. C."; "A. B. C."; "A. B. C."; "A. B. C."]%string.
Proof. vm_compute. reflexivity. Qed.

(** *** Characters *)

Lemma isspace_SP : Py.isspace SP = true.
Proof. reflexivity. Qed.

Lemma printable_SP : printable SP = true.
Proof. reflexivity. Qed.

Lemma printable_kept c : printable c = true -> Py.in_kept_class c = true.
Proof.
  unfold printable, Py.in_kept_class. intros H. rewrite H. reflexivity.
Qed.

Lemma kept_visible_printable c :
  Py.in_kept_class c = true -> Py.isspace c = false -> printable c = true.
Proof.
  unfold Py.in_kept_class, printable, NL, CR, TAB. intros Hk Hs.
  destruct (Py.isspace c) eqn:E; [discriminate|]. clear Hs.
  destruct (((32 <=? c) && (c <=? 126))%N) eqn:P; [reflexivity|].
  exfalso. simpl in Hk.
  assert (c = 10 \/ c = 13 \/ c = 9)%N as Hc
      by (char_facts; auto).
  destruct Hc as [-> | [-> | ->]]; discriminate.
Qed.

Lemma printable_space_is_SP c :
  printable c = true -> Py.isspace c = true -> c = SP.
Proof.
  unfold printable, SP. intros Hp Hs.
  apply andb_true_iff in Hp. destruct Hp as [Hlo Hhi].
  apply N.leb_le in Hlo. apply N.leb_le in Hhi.
  destruct (N.eq_dec c 32) as [|Hne]; [assumption|].
  exfalso. unfold Py.isspace in Hs.
  repeat (apply orb_true_iff in Hs; destruct Hs as [Hs | Hs]);
    char_facts; lia.
Qed.

Lemma printable_not_NL c : printable c = true -> c <> NL.
Proof. unfold printable, NL. intros H ->. discriminate. Qed.

Lemma printable_range c : printable c = true -> (32 <= c <= 126)%N.
Proof. unfold printable. intros H. char_facts. lia. Qed.

(** *** [strip] *)

Module StripFacts.
Import Py.

Lemma lstrip_app a b :
  lstrip (a ++ b) = match lstrip a with [] => lstrip b | _ => lstrip a ++ b end.
Proof.
  induction a as [|c a IH]; simpl.
  - destruct (lstrip b); reflexivity.
  - destruct (isspace c); [exact IH | reflexivity].
Qed.

Lemma lstrip_visible c s : isspace c = false -> lstrip (c :: s) = c :: s.
Proof. intros H. simpl. rewrite H. reflexivity. Qed.

Lemma lstrip_nil_iff s : lstrip s = [] <-> forallb isspace s = true.
Proof.
  induction s as [|c s IH]; simpl; [tauto|].
  destruct (isspace c); simpl; [exact IH | split; discriminate].
Qed.

Lemma lstrip_suffix s : exists pre, s = pre ++ lstrip s.
Proof.
  induction s as [|c s [pre IH]]; simpl.
  - exists []. reflexivity.
  - destruct (isspace c).
    + exists (c :: pre). simpl. f_equal. exact IH.
    + exists []. reflexivity.
Qed.

Lemma lstrip_length s : (length (lstrip s) <= length s)%nat.
Proof.
  destruct (lstrip_suffix s) as [pre E].
  rewrite E at 2. rewrite length_app. lia.
Qed.

Lemma lstrip_head s c r : lstrip s = c :: r -> isspace c = false.
Proof.
  induction s as [|d s IH]; simpl; [discriminate|].
  destruct (isspace d) eqn:E; [exact IH|].
  intros H. injection H as -> _. exact E.
Qed.

Lemma lstrip_idem s : lstrip (lstrip s) = lstrip s.
Proof.
  destruct (lstrip s) as [|c r] eqn:E; [reflexivity|].
  apply lstrip_visible. eapply lstrip_head. exact E.
Qed.

Lemma rstrip_nil : rstrip [] = [].
Proof. reflexivity. Qed.

(** [rstrip] read from the left. *)
Lemma rstrip_cons c s :
  rstrip (c :: s) =
  match rstrip s with
  | [] => if isspace c then [] else [c]
  | r => c :: r
  end.
Proof.
  unfold rstrip. simpl. rewrite lstrip_app.
  destruct (lstrip (rev s)) as [|d r] eqn:E; simpl.
  - destruct (isspace c); reflexivity.
  - rewrite rev_app_distr. simpl.
    destruct (rev r ++ [d]) eqn:E'; [|reflexivity].
    destruct (rev r); discriminate.
Qed.

Lemma rstrip_snoc_space s c : isspace c = true -> rstrip (s ++ [c]) = rstrip s.
Proof.
  intros H. unfold rstrip. rewrite rev_app_distr. simpl. rewrite H. reflexivity.
Qed.

Lemma rstrip_length s : (length (rstrip s) <= length s)%nat.
Proof.
  unfold rstrip. rewrite length_rev.
  etransitivity; [apply lstrip_length|]. rewrite length_rev. lia.
Qed.

Lemma rstrip_prefix s : exists post, s = rstrip s ++ post.
Proof.
  unfold rstrip. destruct (lstrip_suffix (rev s)) as [pre E].
  exists (rev pre). rewrite <- rev_app_distr, <- E, rev_involutive. reflexivity.
Qed.

Lemma rstrip_nil_iff s : rstrip s = [] <-> forallb isspace s = true.
Proof.
  induction s as [|c s IH]; [simpl; tauto|].
  rewrite rstrip_cons. simpl.
  destruct (rstrip s) as [|d r] eqn:E.
  - destruct (isspace c); simpl.
    + split; intros _; [apply IH|]; reflexivity.
    + split; discriminate.
  - split; [discriminate|]. intros H. apply andb_true_iff in H.
    destruct H as [_ H]. apply IH in H. discriminate.
Qed.

Lemma strip_length s : (length (strip s) <= length s)%nat.
Proof.
  unfold strip. etransitivity; [apply lstrip_length | apply rstrip_length].
Qed.

Lemma strip_infix s : exists pre post, s = pre ++ strip s ++ post.
Proof.
  unfold strip. destruct (rstrip_prefix s) as [post E].
  destruct (lstrip_suffix (rstrip s)) as [pre E'].
  exists pre, post. rewrite app_assoc, <- E'. exact E.
Qed.

Lemma strip_nil_iff s : strip s = [] <-> forallb isspace s = true.
Proof.
  unfold strip. rewrite lstrip_nil_iff. split; intros H.
  - destruct (rstrip_prefix s) as [post E].
    destruct (rstrip s) as [|c r] eqn:Er.
    + apply rstrip_nil_iff. exact Er.
    + exfalso. unfold rstrip in Er.
      assert (lstrip (rev s) = rev (c :: r)) as El
          by (rewrite <- Er, rev_involutive; reflexivity).
      assert (forallb isspace (rev (c :: r)) = true) as Hr.
      { rewrite forallb_forall in *. intros x Hx. apply H.
        apply in_rev. exact Hx. }
      rewrite <- El in Hr. apply lstrip_nil_iff in Hr.
      rewrite lstrip_idem in Hr. rewrite Hr in El.
      simpl in El. destruct (rev r); discriminate.
  - apply rstrip_nil_iff in H. rewrite H. reflexivity.
Qed.

Lemma strip_snoc_space s c : isspace c = true -> strip (s ++ [c]) = strip s.
Proof. intros H. unfold strip. rewrite rstrip_snoc_space by exact H. reflexivity. Qed.

Lemma strip_Forall (P : char -> Prop) s : Forall P s -> Forall P (strip s).
Proof.
  intros H. destruct (strip_infix s) as (pre & post & E).
  rewrite E in H. apply Forall_app in H. destruct H as [_ H].
  apply Forall_app in H. tauto.
Qed.

End StripFacts.

(** *** [scan] and [tidy] *)

Module ShapeFacts.
Import Py StripFacts.

Lemma scan_app b s1 s2 :
  scan b (s1 ++ s2) =
  match scan b s1 with Some b' => scan b' s2 | None => None end.
Proof.
  revert b. induction s1 as [|c s1 IH]; intros b; simpl; [reflexivity|].
  destruct (isspace c); [destruct b|]; auto.
Qed.

Lemma tidy_nonempty s : tidy s -> s <> [].
Proof. intros H ->. discriminate. Qed.

Lemma tidy_head s : tidy s -> exists c r, s = c :: r /\ isspace c = false.
Proof.
  destruct s as [|c r]; [discriminate|]. unfold tidy. simpl.
  destruct (isspace c) eqn:E; [discriminate|]. eauto.
Qed.

Lemma tidy_scan_false s : tidy s -> scan false s = Some false.
Proof.
  intros H. destruct (tidy_head s H) as (c & r & -> & Hc).
  unfold tidy in H. simpl in *. rewrite Hc in *. exact H.
Qed.

Lemma tidy_lstrip s : tidy s -> lstrip s = s.
Proof.
  intros H. destruct (tidy_head s H) as (c & r & -> & Hc).
  apply lstrip_visible. exact Hc.
Qed.

Lemma scan_rstrip b s : scan b s = Some false -> rstrip s = s.
Proof.
  revert b. induction s as [|c s IH]; intros b H; [reflexivity|].
  rewrite rstrip_cons. simpl in H.
  destruct (isspace c) eqn:E.
  - destruct b; [discriminate|]. rewrite (IH _ H).
    destruct s; [discriminate | reflexivity].
  - rewrite (IH _ H). destruct s; reflexivity.
Qed.

Lemma tidy_strip s : tidy s -> strip s = s.
Proof.
  intros H. unfold strip. rewrite (scan_rstrip _ _ H). apply tidy_lstrip, H.
Qed.

Lemma tidy_join_space s1 s2 : tidy s1 -> tidy s2 -> tidy (s1 ++ SP :: s2).
Proof.
  unfold tidy. intros H1 H2. rewrite scan_app, H1. simpl. exact H2.
Qed.

(** Right-stripping a string without adjacent white space leaves nothing
    or a string that ends in a visible character. *)
Lemma scan_rstrip_shape b s :
  scan b s <> None -> rstrip s = [] \/ scan b (rstrip s) = Some false.
Proof.
  revert b. induction s as [|c s IH]; intros b H; [left; reflexivity|].
  rewrite rstrip_cons. simpl in H.
  destruct (isspace c) eqn:E.
  - destruct b; [congruence|].
    destruct (IH _ H) as [-> | H']; [left; reflexivity|].
    right. destruct (rstrip s) eqn:Er; [discriminate|].
    simpl. rewrite E. exact H'.
  - right. destruct (IH _ H) as [-> | H'].
    + simpl. rewrite E. reflexivity.
    + destruct (rstrip s) eqn:Er; simpl; rewrite E; [reflexivity | exact H'].
Qed.

Lemma scan_lstrip_shape b s :
  scan b s = Some false -> s <> [] -> tidy (lstrip s).
Proof.
  destruct s as [|c s]; [congruence|]. intros H _. simpl in *.
  destruct (isspace c) eqn:E.
  - destruct b; [discriminate|].
    rewrite (tidy_lstrip s H). exact H.
  - unfold tidy. simpl. rewrite E. exact H.
Qed.

Lemma scan_strip_shape b s : scan b s <> None -> strip s = [] \/ tidy (strip s).
Proof.
  intros H. unfold strip.
  destruct (scan_rstrip_shape b s H) as [-> | H']; [left; reflexivity|].
  destruct (rstrip s) eqn:E; [left; reflexivity|].
  right. rewrite <- E in *. apply (scan_lstrip_shape b); congruence.
Qed.

(** No two adjacent spaces in a string that [scan] accepts. *)
Lemma scan_no_adjacent b s :
  scan b s <> None ->
  forall a r c1 c2, s = a ++ c1 :: c2 :: r ->
                    ~ (isspace c1 = true /\ isspace c2 = true).
Proof.
  intros H a r c1 c2 -> [H1 H2]. apply H.
  rewrite scan_app. destruct (scan b a) as [b'|]; [|reflexivity].
  simpl. rewrite H1, H2. destruct b'; reflexivity.
Qed.

Lemma tidy_no_double_space s : tidy s -> forall a r, s <> a ++ SP :: SP :: r.
Proof.
  intros H a r E.
  refine (scan_no_adjacent true s _ a r SP SP E (conj isspace_SP isspace_SP)).
  unfold tidy in H. congruence.
Qed.

End ShapeFacts.

(** *** Step 1 produces a tidy string of printable characters *)

Module NormalizeFacts.
Import Py StripFacts ShapeFacts.

Lemma sub_ws_scan b s : scan b (sub_ws_from b s) <> None.
Proof.
  revert b. induction s as [|c s IH]; intros b; simpl; [discriminate|].
  destruct (isspace c) eqn:E.
  - destruct b; [apply IH|]. simpl. apply IH.
  - simpl. rewrite E. apply IH.
Qed.

Lemma sub_ws_printable b s :
  Forall (fun c => in_kept_class c = true) s ->
  Forall (fun c => printable c = true) (sub_ws_from b s).
Proof.
  intros H. revert b. induction H as [|c s Hc _ IH]; intros b; simpl; [constructor|].
  destruct (isspace c) eqn:E.
  - destruct b; [apply IH|]. constructor; [reflexivity | apply IH].
  - constructor; [apply kept_visible_printable; assumption | apply IH].
Qed.

Lemma sub_remove_invalid_kept s :
  Forall (fun c => in_kept_class c = true) (sub_remove_invalid s).
Proof.
  apply Forall_forall. intros c Hc. apply filter_In in Hc. tauto.
Qed.

Lemma normalize_printable text :
  Forall (fun c => printable c = true) (normalize text).
Proof.
  unfold normalize. apply strip_Forall, sub_ws_printable, sub_remove_invalid_kept.
Qed.

Lemma normalize_shape text : normalize text = [] \/ tidy (normalize text).
Proof.
  unfold normalize. apply (scan_strip_shape false). apply sub_ws_scan.
Qed.

End NormalizeFacts.

(** *** Step 2 on a tidy string yields tidy pieces *)

Module SplitFacts.
Import Py StripFacts ShapeFacts.

Lemma split_from_nonempty lb s : split_from lb s <> [].
Proof.
  revert lb. induction s as [|c s IH]; intros lb; simpl; [discriminate|].
  destruct (isspace c); [destruct lb|]; try discriminate; try apply IH;
    unfold cons_piece;
    match goal with |- context [split_from ?l s] =>
      specialize (IH l); destruct (split_from l s); [contradiction | discriminate]
    end.
Qed.

Lemma split_empty : split_sentences [] = [[]].
Proof. reflexivity. Qed.

Lemma split_from_tidy s : forall lb b,
  agrees lb b -> scan b s = Some false ->
  exists p ps, split_from lb s = p :: ps
               /\ scan b p = Some false /\ Forall tidy ps.
Proof.
  induction s as [|c s IH]; intros lb b Hag H; simpl in *.
  - exists [], []. auto.
  - destruct (isspace c) eqn:E.
    + destruct b; [discriminate|].
      destruct lb; simpl in Hag |- *; try discriminate.
      * destruct (IH Plain true I H) as (p & ps & -> & Hp & Hps).
        exists (c :: p), ps. simpl. rewrite E. auto.
      * destruct (IH InDelimiter true eq_refl H) as (p & ps & -> & Hp & Hps).
        exists [], (p :: ps). simpl. auto.
    + set (lb' := if is_terminal c then AfterTerminal else Plain).
      assert (agrees lb' false) as Hag' by (unfold lb'; destruct (is_terminal c); simpl; auto).
      destruct (IH lb' false Hag' H) as (p & ps & -> & Hp & Hps).
      exists (c :: p), ps. simpl. rewrite E. auto.
Qed.

Lemma split_sentences_tidy s : tidy s -> Forall tidy (split_sentences s).
Proof.
  intros H. unfold split_sentences.
  destruct (split_from_tidy s Plain true I H) as (p & ps & -> & Hp & Hps).
  constructor; assumption.
Qed.

Lemma cons_piece_Forall (P : char -> Prop) c ps :
  P c -> Forall (Forall P) ps -> Forall (Forall P) (cons_piece c ps).
Proof.
  intros Hc Hps. destruct ps as [|p ps]; simpl.
  - repeat constructor. exact Hc.
  - inversion Hps; subst. constructor; [constructor|]; assumption.
Qed.

Lemma split_from_Forall (P : char -> Prop) s : forall lb,
  Forall P s -> Forall (Forall P) (split_from lb s).
Proof.
  induction s as [|c s IH]; intros lb H; simpl.
  - repeat constructor.
  - inversion H; subst.
    destruct (isspace c); [destruct lb|];
      try (apply cons_piece_Forall; [assumption|]); try constructor; auto.
Qed.

End SplitFacts.

(** *** Step 3: the recorded loop and the loop of the source *)

Module PackFacts.
Import Py StripFacts ShapeFacts.

Lemma len_app a b : len (a ++ b) = len a + len b.
Proof. unfold len. rewrite length_app. lia. Qed.

Lemma len_nonneg s : 0 <= len s.
Proof. unfold len. lia. Qed.

Lemma text_of_snoc g e : text_of (g ++ [e]) = text_of g ++ snd e ++ [SP].
Proof. unfold text_of. rewrite flat_map_app. simpl. rewrite app_nil_r. reflexivity. Qed.

Lemma text_of_single e : text_of [e] = snd e ++ [SP].
Proof. apply (text_of_snoc [] e). Qed.

Lemma len_text_of_snoc g e : len (text_of (g ++ [e])) = len (text_of g) + len (snd e) + 1.
Proof. rewrite text_of_snoc, !len_app. unfold len. simpl. lia. Qed.

Section Bounds.

Variables min_chars max_chars : Z.

Let step := trace_step min_chars max_chars.

Lemma erase_step t s :
  erase (step t s) = pack_step min_chars max_chars (erase t) s.
Proof.
  unfold step, trace_step, pack_step. simpl.
  destruct (is_empty (strip s)); [reflexivity|].
  destruct (len (text_of (open t)) + len s + 1 <=? max_chars).
  - unfold erase. simpl. rewrite text_of_snoc. reflexivity.
  - destruct (min_chars <=? len (strip (text_of (open t)))); unfold erase; simpl.
    + rewrite map_app, app_nil_r. reflexivity.
    + rewrite text_of_snoc. reflexivity.
Qed.

Lemma erase_fold ss : forall t,
  erase (fold_left step ss t)
  = fold_left (pack_step min_chars max_chars) ss (erase t).
Proof.
  induction ss as [|s ss IH]; intros t; simpl; [reflexivity|].
  rewrite IH, erase_step. reflexivity.
Qed.

Lemma erase_trace ss :
  erase (trace min_chars max_chars ss) = pack min_chars max_chars ss.
Proof. apply erase_fold. Qed.

Lemma trace_snoc ss s :
  trace min_chars max_chars (ss ++ [s]) = step (trace min_chars max_chars ss) s.
Proof. unfold trace. rewrite fold_left_app. reflexivity. Qed.

(** Induction over the loop: [P] holds of every accumulator content,
    [Q] of every content at the moment it is flushed inside the loop. *)
Lemma trace_invariant (P Q : group -> Prop) :
  P [] ->
  (forall g s, P g -> nonblank s = true ->
     len (text_of g) + len s + 1 <= max_chars -> P (g ++ [(Fit, s)])) ->
  (forall g s, P g -> nonblank s = true ->
     max_chars < len (text_of g) + len s + 1 ->
     min_chars <= len (chunk_text g) -> Q g /\ P [(Flush, s)]) ->
  (forall g s, P g -> nonblank s = true ->
     max_chars < len (text_of g) + len s + 1 ->
     len (chunk_text g) < min_chars -> P (g ++ [(Force, s)])) ->
  forall ss,
    Forall (fun g => P g /\ Q g) (closed (trace min_chars max_chars ss))
    /\ P (open (trace min_chars max_chars ss)).
Proof.
  intros Hnil Hfit Hflush Hforce ss.
  induction ss as [|s ss [IHc IHo]] using rev_ind.
  - split; [constructor | exact Hnil].
  - rewrite trace_snoc. unfold step, trace_step, nonblank in *.
    destruct (is_empty (strip s)) eqn:Eb; [auto|].
    destruct (Z.leb_spec (len (text_of (open (trace min_chars max_chars ss)))
                          + len s + 1) max_chars) as [Hle | Hgt]; simpl.
    + split; [exact IHc|]. apply Hfit; auto. rewrite Eb. reflexivity.
    + fold (chunk_text (open (trace min_chars max_chars ss))).
      destruct (Z.leb_spec min_chars
                  (len (chunk_text (open (trace min_chars max_chars ss)))))
        as [Hmin | Hmin]; simpl.
      * destruct (Hflush _ s IHo) as [HQ HP]; auto; [rewrite Eb; reflexivity|].
        split; [|exact HP]. apply Forall_app. split; [exact IHc|].
        constructor; [|constructor]. auto.
      * split; [exact IHc|]. apply Hforce; auto. rewrite Eb. reflexivity.
Qed.

(** The sentences that entered the accumulators, in order, are the
    sentences the loop did not skip. *)
Lemma trace_conservation ss :
  let t := trace min_chars max_chars ss in
  concat (map sentences_of (closed t)) ++ sentences_of (open t)
  = filter nonblank ss.
Proof.
  induction ss as [|s ss IH] using rev_ind; [reflexivity|].
  simpl in *. rewrite trace_snoc, filter_app, <- IH. clear IH.
  set (t := trace min_chars max_chars ss).
  unfold step, trace_step, nonblank. simpl.
  destruct (is_empty (strip s)); simpl; [rewrite app_nil_r; reflexivity|].
  destruct (len (text_of (open t)) + len s + 1 <=? max_chars); simpl.
  - unfold sentences_of. rewrite map_app, app_assoc. reflexivity.
  - destruct (min_chars <=? len (strip (text_of (open t)))); simpl.
    + rewrite map_app, concat_app. simpl. rewrite !app_nil_r. reflexivity.
    + unfold sentences_of. rewrite map_app, app_assoc. reflexivity.
Qed.

End Bounds.

End PackFacts.

(** *** Chunks as sentences joined by single spaces *)

Module ChunkFacts.
Import Py StripFacts ShapeFacts NormalizeFacts SplitFacts PackFacts.

Lemma join_cons2 sep p q r : join sep (p :: q :: r) = p ++ sep ++ join sep (q :: r).
Proof. reflexivity. Qed.

Lemma join_tidy ss : ss <> [] -> Forall tidy ss -> tidy (join [SP] ss).
Proof.
  induction ss as [|p [|q r] IH]; intros Hne H; [contradiction| |].
  - inversion H; assumption.
  - rewrite join_cons2. inversion H; subst.
    apply tidy_join_space; [assumption|]. apply IH; [discriminate | assumption].
Qed.

Lemma text_of_join g :
  g <> [] -> text_of g = join [SP] (sentences_of g) ++ [SP].
Proof.
  induction g as [|e [|e' g] IH]; intros Hne; [contradiction| |].
  - simpl. rewrite app_nil_r. reflexivity.
  - change (text_of (e :: e' :: g)) with ((snd e ++ [SP]) ++ text_of (e' :: g)).
    rewrite IH by discriminate.
    change (sentences_of (e :: e' :: g))
      with (snd e :: snd e' :: sentences_of g).
    rewrite join_cons2. change (sentences_of (e' :: g)) with (snd e' :: sentences_of g).
    rewrite <- !app_assoc. reflexivity.
Qed.

Lemma chunk_text_nil : chunk_text [] = [].
Proof. reflexivity. Qed.

Lemma chunk_text_join g :
  Forall tidy (sentences_of g) -> chunk_text g = join [SP] (sentences_of g).
Proof.
  intros H. destruct g as [|e g]; [reflexivity|].
  unfold chunk_text. rewrite text_of_join by discriminate.
  rewrite strip_snoc_space by reflexivity.
  apply tidy_strip, join_tidy; [discriminate | assumption].
Qed.

Lemma chunk_text_tidy g :
  g <> [] -> Forall tidy (sentences_of g) -> tidy (chunk_text g).
Proof.
  intros Hne H. rewrite chunk_text_join by assumption.
  apply join_tidy; [|assumption]. destruct g; [contradiction | discriminate].
Qed.

Lemma text_of_Forall (P : char -> Prop) g :
  P SP -> Forall (Forall P) (sentences_of g) -> Forall P (text_of g).
Proof.
  intros HP H. induction g as [|e g IH]; simpl; [constructor|].
  inversion H; subst. rewrite <- app_assoc.
  apply Forall_app. split; [assumption|]. constructor; auto.
Qed.

Lemma chunk_text_printable g :
  Forall (Forall (fun c => printable c = true)) (sentences_of g) ->
  Forall (fun c => printable c = true) (chunk_text g).
Proof.
  intros H. apply strip_Forall, text_of_Forall; [reflexivity | assumption].
Qed.

(** A chunk is one sentence shorter than its accumulator at least: the
    joining space after the last sentence is stripped. *)
Lemma chunk_text_shorter g : g <> [] -> len (chunk_text g) + 1 <= len (text_of g).
Proof.
  intros Hne. destruct (exists_last Hne) as (g' & e & ->).
  unfold chunk_text. rewrite text_of_snoc, !app_assoc.
  rewrite strip_snoc_space by reflexivity.
  rewrite len_app. unfold len at 3. simpl.
  pose proof (strip_length (text_of g' ++ snd e)). unfold len. lia.
Qed.

(** **** The sentences of a text *)

Lemma sentences_empty text : normalize text = [] -> sentences text = [].
Proof. unfold sentences. intros ->. reflexivity. Qed.

Lemma tidy_nonblank s : tidy s -> nonblank s = true.
Proof.
  intros H. unfold nonblank. rewrite (tidy_strip s H).
  destruct s; [discriminate | reflexivity].
Qed.

Lemma split_normalize_tidy text :
  normalize text <> [] -> Forall tidy (split_sentences (normalize text)).
Proof.
  intros Hne. destruct (normalize_shape text) as [E | H]; [contradiction|].
  apply split_sentences_tidy, H.
Qed.

Lemma filter_nonblank_tidy l : Forall tidy l -> filter nonblank l = l.
Proof.
  intros H. induction H as [|p l Hp _ IH]; [reflexivity|].
  simpl. rewrite (tidy_nonblank p Hp), IH. reflexivity.
Qed.

(** With a non-empty normalized text, the loop skips no sentence. *)
Lemma sentences_all text :
  normalize text <> [] -> sentences text = split_sentences (normalize text).
Proof.
  intros Hne. apply filter_nonblank_tidy, split_normalize_tidy, Hne.
Qed.

Lemma sentences_tidy text : Forall tidy (sentences text).
Proof.
  destruct (normalize text) as [|c0 r0] eqn:E.
  - rewrite sentences_empty by assumption. constructor.
  - assert (normalize text <> []) as Hne by congruence.
    rewrite sentences_all by assumption.
    apply split_normalize_tidy, Hne.
Qed.

Lemma sentences_printable text :
  Forall (Forall (fun c => printable c = true)) (sentences text).
Proof.
  unfold sentences. apply Forall_forall. intros s Hs.
  apply filter_In in Hs. destruct Hs as [Hs _].
  pose proof (split_from_Forall _ (normalize text) Plain
                (normalize_printable text)) as H.
  rewrite Forall_forall in H. apply H, Hs.
Qed.

(** **** The groups of a run *)

Section Run.

Variable text : str.
Variables min_chars max_chars : Z.

Let t := trace min_chars max_chars (split_sentences (normalize text)).

Lemma groups_chunks :
  map chunk_text (groups text min_chars max_chars) = chunks text min_chars max_chars.
Proof.
  unfold groups, chunks. simpl. rewrite <- erase_trace. simpl.
  fold (chunk_text (open (trace min_chars max_chars
                            (split_sentences (normalize text))))).
  destruct (is_empty _); [reflexivity|].
  rewrite map_app. reflexivity.
Qed.

Lemma loop_groups_lines :
  map chunk_text (loop_groups text min_chars max_chars)
  = lines (pack min_chars max_chars (split_sentences (normalize text))).
Proof. unfold loop_groups. rewrite <- erase_trace. reflexivity. Qed.

Lemma in_groups g :
  In g (groups text min_chars max_chars) -> In g (closed t ++ [open t]).
Proof.
  unfold groups. fold t. destruct (is_empty _); intros H; [|exact H].
  apply in_or_app. left. exact H.
Qed.

Lemma in_loop_groups g :
  In g (loop_groups text min_chars max_chars) -> In g (closed t ++ [open t]).
Proof. intros H. apply in_or_app. left. exact H. Qed.

Lemma group_sentences_in g :
  In g (closed t ++ [open t]) ->
  forall s, In s (sentences_of g) -> In s (sentences text).
Proof.
  intros Hg s Hs. unfold sentences.
  rewrite <- (trace_conservation min_chars max_chars). fold t.
  apply in_app_or in Hg. apply in_or_app. destruct Hg as [Hg | [<- | []]].
  - left. apply in_concat. exists (sentences_of g). split; [|exact Hs].
    apply in_map. exact Hg.
  - right. exact Hs.
Qed.

Lemma group_tidy g :
  In g (closed t ++ [open t]) -> Forall tidy (sentences_of g).
Proof.
  intros Hg. apply Forall_forall. intros s Hs.
  pose proof (sentences_tidy text) as H. rewrite Forall_forall in H.
  apply H. eapply group_sentences_in; eassumption.
Qed.

Lemma group_printable g :
  In g (closed t ++ [open t]) ->
  Forall (Forall (fun c => printable c = true)) (sentences_of g).
Proof.
  intros Hg. apply Forall_forall. intros s Hs.
  pose proof (sentences_printable text) as H. rewrite Forall_forall in H.
  apply H. eapply group_sentences_in; eassumption.
Qed.

(** The accumulator left after the loop is pushed unless it holds no
    sentence. *)
Lemma open_group_empty :
  is_empty (chunk_text (open t)) = true -> open t = [].
Proof.
  intros H. destruct (open t) as [|e g] eqn:E; [reflexivity|]. exfalso.
  assert (tidy (chunk_text (open t))) as Ht.
  { apply chunk_text_tidy; [congruence|].
    apply group_tidy. apply in_or_app. right. left. reflexivity. }
  rewrite E in Ht. destruct (chunk_text (e :: g)); discriminate.
Qed.

Lemma groups_conservation :
  concat (map sentences_of (groups text min_chars max_chars)) = sentences text.
Proof.
  unfold sentences. rewrite <- (trace_conservation min_chars max_chars).
  unfold groups. fold t. simpl.
  destruct (is_empty (chunk_text (open t))) eqn:E.
  - rewrite (open_group_empty E). simpl. rewrite app_nil_r. reflexivity.
  - rewrite map_app, concat_app. simpl. rewrite app_nil_r. reflexivity.
Qed.

End Run.

End ChunkFacts.

(** *** [replace] *)

Module ReplaceFacts.
Import Py.

Lemma replace_from_absent a old' new s :
  ~ In a s -> replace_from (a :: old') new 0 s = s.
Proof.
  induction s as [|c s IH]; intros Hn; [reflexivity|].
  cbn [replace_from startswith].
  destruct (N.eqb_spec a c) as [-> | Hne].
  - exfalso. apply Hn. left. reflexivity.
  - simpl. f_equal. apply IH. intros Hin. apply Hn. right. exact Hin.
Qed.

Lemma replace_absent a old' new s : ~ In a s -> replace (a :: old') new s = s.
Proof. apply replace_from_absent. Qed.

Lemma replace_from_Forall (P : char -> Prop) old new s : forall k,
  Forall P new -> Forall P s -> Forall P (replace_from old new k s).
Proof.
  induction s as [|c s IH]; intros k Hnew Hs; simpl; [constructor|].
  inversion Hs; subst. destruct k; [|auto].
  destruct (startswith old (c :: s)).
  - apply Forall_app. auto.
  - constructor; auto.
Qed.

Lemma replace_Forall (P : char -> Prop) a old' new s :
  Forall P new -> Forall P s -> Forall P (replace (a :: old') new s).
Proof. apply replace_from_Forall. Qed.

End ReplaceFacts.

(** *** Inputs that normalize to the empty string *)

Module BlankFacts.
Import Py StripFacts ReplaceFacts.

Lemma sub_ws_all_space s : forall b,
  forallb isspace s = true -> forallb isspace (sub_ws_from b s) = true.
Proof.
  induction s as [|c s IH]; intros b H; simpl in *; [reflexivity|].
  apply andb_true_iff in H. destruct H as [Hc Hs]. rewrite Hc.
  destruct b; simpl; auto.
Qed.

Lemma removable_absent (a : char) text :
  removable a = false -> forallb removable text = true -> ~ In a text.
Proof.
  intros Ha H Hin. rewrite forallb_forall in H. apply H in Hin. congruence.
Qed.

Lemma removable_replacements text :
  forallb removable text = true ->
  forallb removable (apply_replacements text) = true.
Proof.
  intros H. unfold apply_replacements, replacements. cbn [fold_left].
  rewrite (replace_absent 34%N [] _ text)
    by (apply removable_absent; [reflexivity | assumption]).
  rewrite (replace_absent 58%N _ _ text)
    by (apply removable_absent; [reflexivity | assumption]).
  rewrite (replace_absent 0x2014%N [] _ text)
    by (apply removable_absent; [reflexivity | assumption]).
  rewrite (replace_absent 0x2013%N [] _ text)
    by (apply removable_absent; [reflexivity | assumption]).
  apply forallb_forall. apply Forall_forall. apply replace_Forall.
  - repeat constructor.
  - apply Forall_forall. apply forallb_forall. exact H.
Qed.

Lemma removable_normalize text :
  forallb removable text = true -> normalize text = [].
Proof.
  intros H. apply removable_replacements in H. unfold normalize.
  apply strip_nil_iff, sub_ws_all_space. apply forallb_forall.
  intros c Hc. apply filter_In in Hc. destruct Hc as [Hin Hk].
  rewrite forallb_forall in H. apply H in Hin.
  unfold removable in Hin. rewrite Hk in Hin. simpl in Hin.
  rewrite orb_false_r in Hin.
  apply andb_true_iff in Hin. destruct Hin as [Hin _].
  apply andb_true_iff in Hin. tauto.
Qed.

End BlankFacts.

(** *** [join] with the newline separator *)

Module JoinFacts.
Import Py.

Lemma first_occurrence (x : char) p : forall a u v,
  ~ In x p -> p ++ x :: u = a ++ x :: v ->
  (a = p /\ u = v) \/ (exists a', a = p ++ x :: a' /\ u = a' ++ x :: v).
Proof.
  induction p as [|c p IH]; intros a u v Hn E.
  - destruct a as [|d a]; simpl in E.
    + left. injection E as E. auto.
    + right. injection E as -> E. exists a. auto.
  - destruct a as [|d a]; simpl in E.
    + exfalso. injection E as -> _. apply Hn. left. reflexivity.
    + injection E as <- E.
      destruct (IH a u v) as [[-> ->] | (a' & -> & ->)]; auto.
      * intros Hin. apply Hn. right. exact Hin.
      * right. exists a'. auto.
Qed.

Lemma app_ends (A : Type) (x y r : list A) c :
  y <> [] -> x ++ y = r ++ [c] -> exists r', y = r' ++ [c].
Proof.
  intros Hy E. destruct (exists_last Hy) as (y' & c' & ->).
  rewrite app_assoc in E. apply app_inj_tail in E. destruct E as [_ ->].
  exists y'. reflexivity.
Qed.

Lemma join_cons_cons p q r : join [NL] (p :: q :: r) = p ++ NL :: join [NL] (q :: r).
Proof. reflexivity. Qed.

Lemma join_head_solid q r b : solid q -> join [NL] (q :: r) <> NL :: b.
Proof.
  intros [Hne Hn] E. destruct q as [|c q]; [contradiction|].
  destruct r; simpl in E; injection E as -> _; apply Hn; left; reflexivity.
Qed.

Lemma join_not_nil q r : solid q -> join [NL] (q :: r) <> [].
Proof.
  intros [Hne _] E. destruct q; [contradiction|]. destruct r; discriminate.
Qed.

Lemma join_no_double_newline ps :
  Forall solid ps -> forall a b, join [NL] ps <> a ++ NL :: NL :: b.
Proof.
  induction ps as [|p [|q r] IH]; intros H a b E.
  - destruct a; discriminate.
  - inversion H as [|? ? [_ Hn] _]; subst. apply Hn. simpl in E. rewrite E.
    apply in_or_app. right. left. reflexivity.
  - inversion H as [|? ? [_ Hn] Hr]; subst. rewrite join_cons_cons in E.
    destruct (first_occurrence NL p a _ _ Hn E) as [[_ E'] | (a' & _ & E')].
    + inversion Hr; subst. eapply join_head_solid; eassumption.
    + exact (IH Hr a' b E').
Qed.

Lemma join_no_leading_newline ps :
  Forall solid ps -> forall r, join [NL] ps <> NL :: r.
Proof.
  intros H r E. destruct ps as [|p ps]; [discriminate|].
  inversion H; subst. eapply join_head_solid; eassumption.
Qed.

Lemma join_no_trailing_newline ps :
  Forall solid ps -> forall r, join [NL] ps <> r ++ [NL].
Proof.
  induction ps as [|p [|q r'] IH]; intros H r E.
  - destruct r; discriminate.
  - inversion H as [|? ? [_ Hn] _]; subst. apply Hn. simpl in E. rewrite E.
    apply in_or_app. right. left. reflexivity.
  - inversion H as [|? ? _ Hr]; subst. rewrite join_cons_cons in E.
    assert (NL :: join [NL] (q :: r') <> []) as Hne by discriminate.
    destruct (app_ends _ _ _ _ _ Hne E) as (r1 & E1).
    destruct r1 as [|d r1]; cbn [app] in E1.
    + injection E1 as E1. inversion Hr as [|? ? Hq _]; subst.
      exact (join_not_nil q r' Hq E1).
    + injection E1 as _ E1. exact (IH Hr r1 E1).
Qed.

Lemma join_Forall (P : char -> Prop) ps :
  P NL -> Forall (Forall P) ps -> Forall P (join [NL] ps).
Proof.
  intros HP. induction ps as [|p [|q r] IH]; intros H.
  - constructor.
  - inversion H; assumption.
  - inversion H; subst. rewrite join_cons_cons.
    apply Forall_app. split; [assumption|]. constructor; auto.
Qed.

End JoinFacts.

(** *** What the tags of a group say about it *)

Module TagFacts.
Import Py StripFacts ShapeFacts PackFacts ChunkFacts.

Lemma well_tagged_snoc mn mx g : forall pre e,
  well_tagged_from mn mx pre g ->
  branch_taken mn mx (pre ++ g) (fst e) (snd e) ->
  well_tagged_from mn mx pre (g ++ [e]).
Proof.
  induction g as [|x g IH]; intros pre e Hg He; simpl in *.
  - rewrite app_nil_r in He. auto.
  - destruct Hg as [Hx Hg]. split; [exact Hx|].
    apply IH; [exact Hg|]. rewrite <- app_assoc. exact He.
Qed.

Lemma well_tagged_at mn mx pre : forall p0 e post,
  well_tagged_from mn mx p0 (pre ++ e :: post) ->
  branch_taken mn mx (p0 ++ pre) (fst e) (snd e).
Proof.
  induction pre as [|x pre IH]; intros p0 e post H; simpl in H.
  - rewrite app_nil_r. tauto.
  - destruct H as [_ H]. apply IH in H. rewrite <- app_assoc in H. exact H.
Qed.

Lemma forced_snoc g e : forced (g ++ [e]) = forced g || tag_is Force e.
Proof. unfold forced. rewrite existsb_app. simpl. rewrite orb_false_r. reflexivity. Qed.

Lemma all_fit_not_forced g : all_fit g = true -> forced g = false.
Proof.
  unfold all_fit, forced. induction g as [|e g IH]; simpl; [reflexivity|].
  intros H. apply andb_true_iff in H. destruct H as [He Hg].
  rewrite (IH Hg). destruct e as [[] s]; simpl in *; congruence.
Qed.

Section Bounds.

Variables min_chars max_chars : Z.
Variable ss : list str.

Let t := trace min_chars max_chars ss.

Lemma trace_all (P : group -> Prop) :
  Forall (fun g => P g /\ True) (closed t) /\ P (open t) ->
  Forall P (closed t ++ [open t]).
Proof.
  intros [Hc Ho]. apply Forall_app. split.
  - eapply Forall_impl; [|exact Hc]. simpl. tauto.
  - constructor; [exact Ho | constructor].
Qed.

Lemma trace_well_tagged :
  Forall (well_tagged min_chars max_chars) (closed t ++ [open t]).
Proof.
  apply trace_all. apply trace_invariant.
  - exact I.
  - intros g s Hg _ Hfit. apply well_tagged_snoc; assumption.
  - intros g s _ _ _ _. split; [exact I|]. unfold well_tagged. simpl. auto.
  - intros g s Hg _ Hover Hmin. apply well_tagged_snoc; [assumption|].
    simpl. auto.
Qed.

Lemma trace_bounded : Forall (bounded max_chars) (closed t ++ [open t]).
Proof.
  apply trace_all. apply trace_invariant; unfold bounded.
  - auto.
  - intros g s _ _ Hfit _. right. left.
    rewrite len_text_of_snoc. exact Hfit.
  - intros g s _ _ _ _. split; [exact I|]. intros _.
    destruct (Z.le_gt_cases (len s + 1) max_chars) as [Hle | Hgt].
    + right. left. rewrite text_of_single, len_app. exact Hle.
    + right. right. exists s. split; [reflexivity | lia].
  - intros g s _ _ _ _ Hf. rewrite forced_snoc, orb_true_r in Hf. discriminate.
Qed.

Lemma trace_closed_min :
  Forall (fun g => min_chars <= len (chunk_text g)) (closed t).
Proof.
  eapply Forall_impl;
    [| apply (trace_invariant min_chars max_chars (fun _ => True)
                (fun g => min_chars <= len (chunk_text g))); auto].
  simpl. tauto.
Qed.

Lemma trace_never_fits :
  max_chars <= 0 ->
  Forall (fun g => Forall (fun e => tag_is Fit e = false) g)
         (closed t ++ [open t]).
Proof.
  intros Hmx. apply trace_all. apply trace_invariant.
  - constructor.
  - intros g s _ _ Hfit. exfalso.
    pose proof (len_nonneg (text_of g)). pose proof (len_nonneg s). lia.
  - intros g s _ _ _ _. split; [exact I|]. repeat constructor.
  - intros g s Hg _ _ _. apply Forall_app. split; [exact Hg|].
    repeat constructor.
Qed.

End Bounds.

End TagFacts.

(** *** A second pass over a normalized text *)

Module IdemFacts.
Import Py StripFacts ShapeFacts NormalizeFacts ReplaceFacts.

Lemma replace_from_same a s : replace_from [a] [a] 0 s = s.
Proof.
  induction s as [|c s IH]; [reflexivity|].
  cbn [replace_from startswith length Nat.sub].
  destruct (N.eqb_spec a c) as [-> | Hne]; simpl; rewrite IH; reflexivity.
Qed.

Lemma replace_from_absent_key old new s :
  absent old s = true -> replace_from old new 0 s = s.
Proof.
  induction s as [|c s IH]; intros H; [reflexivity|].
  cbn [absent] in H. apply andb_true_iff in H. destruct H as [Hc Hs].
  cbn [replace_from]. apply negb_true_iff in Hc. rewrite Hc, (IH Hs).
  reflexivity.
Qed.

Lemma printable_absent (a : char) s :
  printable a = false -> Forall (fun c => printable c = true) s -> ~ In a s.
Proof.
  intros Ha H Hin. rewrite Forall_forall in H. apply H in Hin. congruence.
Qed.

Lemma replacements_fixed s :
  Forall (fun c => printable c = true) s ->
  absent garbled_key s = true -> apply_replacements s = s.
Proof.
  intros Hp Hk. unfold apply_replacements, replacements. cbn [fold_left].
  unfold replace at 5. rewrite replace_from_same.
  unfold replace at 4. fold garbled_key.
  rewrite (replace_from_absent_key garbled_key _ s Hk).
  rewrite (replace_absent 0x2014%N [] _ s)
    by (apply printable_absent; [reflexivity | assumption]).
  rewrite (replace_absent 0x2013%N [] _ s)
    by (apply printable_absent; [reflexivity | assumption]).
  apply replace_absent, printable_absent; [reflexivity | assumption].
Qed.

Lemma sub_remove_invalid_fixed s :
  Forall (fun c => printable c = true) s -> sub_remove_invalid s = s.
Proof.
  unfold sub_remove_invalid. induction 1 as [|c s Hc _ IH]; [reflexivity|].
  simpl. rewrite (printable_kept c Hc), IH. reflexivity.
Qed.

Lemma sub_ws_fixed s : forall b,
  Forall (fun c => printable c = true) s ->
  scan b s <> None -> sub_ws_from b s = s.
Proof.
  induction s as [|c s IH]; intros b Hp H; [reflexivity|].
  inversion Hp as [|? ? Hc Hs]; subst. simpl in *.
  destruct (isspace c) eqn:E.
  - destruct b; [congruence|].
    rewrite (IH true Hs H), (printable_space_is_SP c Hc E). reflexivity.
  - rewrite (IH false Hs H). reflexivity.
Qed.

Lemma normalize_fixed s :
  Forall (fun c => printable c = true) s ->
  s = [] \/ tidy s ->
  absent garbled_key s = true -> normalize s = s.
Proof.
  intros Hp Hs Hk. unfold normalize.
  rewrite (replacements_fixed s Hp Hk), (sub_remove_invalid_fixed s Hp).
  destruct Hs as [-> | Ht]; [reflexivity|].
  unfold sub_collapse_ws. rewrite sub_ws_fixed.
  - apply tidy_strip, Ht.
  - exact Hp.
  - rewrite (tidy_scan_false s Ht). discriminate.
Qed.

(** Apart from the seven-character key, one pass is enough. *)
Lemma normalize_idempotent_without_key text :
  absent garbled_key (normalize text) = true ->
  normalize (normalize text) = normalize text.
Proof.
  intros H. apply normalize_fixed;
    [apply normalize_printable | apply normalize_shape | exact H].
Qed.

End IdemFacts.

(** *** Reading the sentences back out of a chunk *)

Module ResplitFacts.
Import Py StripFacts ShapeFacts SplitFacts ChunkFacts.

Lemma prepend_cons c s ps : prepend (c :: s) ps = cons_piece c (prepend s ps).
Proof. destruct ps; reflexivity. Qed.

Lemma prepend_nil ps : ps <> [] -> prepend [] ps = ps.
Proof. destruct ps; [contradiction | reflexivity]. Qed.

Lemma split_run s : forall lb st rest,
  run lb s = Some st ->
  split_from lb (s ++ rest) = prepend s (split_from st rest).
Proof.
  induction s as [|c s IH]; intros lb st rest H; simpl in H.
  - injection H as <-. rewrite prepend_nil by apply split_from_nonempty.
    reflexivity.
  - rewrite prepend_cons. simpl. destruct (isspace c).
    + destruct lb; try discriminate. rewrite (IH _ _ _ H). reflexivity.
    + rewrite (IH _ _ _ H). reflexivity.
Qed.

Lemma split_chained s : forall lb, chained lb (split_from lb s).
Proof.
  induction s as [|c s IH]; intros lb; simpl.
  - auto.
  - destruct (isspace c) eqn:E.
    + destruct lb.
      * specialize (IH Plain). pose proof (split_from_nonempty Plain s) as Hne.
        destruct (split_from Plain s) as [|p ps]; [contradiction|].
        simpl in *. rewrite E. exact IH.
      * simpl. split; [auto | apply IH].
      * apply IH.
    + set (lb' := if is_terminal c then AfterTerminal else Plain).
      specialize (IH lb'). pose proof (split_from_nonempty lb' s) as Hne.
      destruct (split_from lb' s) as [|p ps]; [contradiction|].
      simpl in *. rewrite E. exact IH.
Qed.

Lemma run_visible_start lb s : tidy s -> run lb s = run Plain s.
Proof.
  intros H. destruct (tidy_head s H) as (c & r & -> & Hc).
  simpl. rewrite Hc. reflexivity.
Qed.

Lemma split_visible_start s : tidy s -> split_from InDelimiter s = split_from Plain s.
Proof.
  intros H. destruct (tidy_head s H) as (c & r & -> & Hc).
  simpl. rewrite Hc. reflexivity.
Qed.

Lemma chained_well_split ps : forall lb,
  Forall tidy ps -> chained lb ps -> well_split ps.
Proof.
  induction ps as [|p ps IH]; intros lb Ht H; [exact I|].
  inversion Ht as [|? ? Hp Hps]; subst. simpl in H.
  rewrite (run_visible_start lb p Hp) in H.
  destruct (run Plain p) as [st|] eqn:E; [|contradiction].
  destruct H as [Hst Hc]. simpl. rewrite E. split; [|exact (IH _ Hps Hc)].
  destruct ps; [discriminate|].
  destruct Hst as [? | ->]; [discriminate | reflexivity].
Qed.

Lemma well_split_app l1 l2 : well_split (l1 ++ l2) -> well_split l1 /\ well_split l2.
Proof.
  induction l1 as [|p l1 IH]; intros H; [simpl; auto|].
  simpl in H. destruct H as [Hp H]. destruct (IH H) as [H1 H2].
  split; [|exact H2]. simpl. split; [|exact H1].
  destruct l1; [|exact Hp].
  destruct l2; simpl in Hp; [exact Hp | rewrite Hp; discriminate].
Qed.

Lemma well_split_concat gs : well_split (concat gs) -> Forall well_split gs.
Proof.
  induction gs as [|g gs IH]; intros H; [constructor|].
  simpl in H. apply well_split_app in H. destruct H. constructor; auto.
Qed.

(** Splitting the single-space join of well-split tidy sentences gives
    the sentences back. *)
Lemma resplit ps :
  ps <> [] -> Forall tidy ps -> well_split ps ->
  split_sentences (join [SP] ps) = ps.
Proof.
  unfold split_sentences.
  induction ps as [|p [|q r] IH]; intros Hne Ht Hw; [contradiction| |].
  - simpl in *. destruct Hw as [Hw _].
    destruct (run Plain p) as [st|] eqn:E; [|contradiction].
    rewrite <- (app_nil_r p) at 1. rewrite (split_run p Plain st [] E).
    simpl. rewrite app_nil_r. reflexivity.
  - destruct Hw as [Hp Hw]. inversion Ht as [|? ? _ Ht']; subst.
    change (join [SP] (p :: q :: r)) with (p ++ SP :: join [SP] (q :: r)).
    rewrite (split_run p Plain AfterTerminal _ Hp).
    cbn [split_from]. rewrite isspace_SP.
    rewrite split_visible_start by (apply join_tidy; [discriminate | exact Ht']).
    rewrite IH by (try discriminate; assumption).
    simpl. rewrite app_nil_r. reflexivity.
Qed.

Lemma split_sentences_well_split s :
  tidy s -> well_split (split_sentences s).
Proof.
  intros H. apply (chained_well_split _ Plain).
  - apply split_sentences_tidy, H.
  - apply split_chained.
Qed.

Lemma sentences_well_split text : well_split (sentences text).
Proof.
  destruct (normalize text) as [|c0 r0] eqn:E.
  - rewrite sentences_empty by assumption. exact I.
  - assert (normalize text <> []) as Hne by congruence.
    rewrite sentences_all by assumption.
    apply split_sentences_well_split.
    destruct (NormalizeFacts.normalize_shape text); [contradiction | assumption].
Qed.

(** The sentences of a group can be read back from its chunk. *)
Lemma chunk_resplit text min_chars max_chars g :
  In g (groups text min_chars max_chars) ->
  filter nonblank (split_sentences (chunk_text g)) = sentences_of g.
Proof.
  intros Hg.
  pose proof (sentences_well_split text) as Hw.
  rewrite <- (groups_conservation text min_chars max_chars) in Hw.
  apply well_split_concat in Hw. rewrite Forall_forall in Hw.
  specialize (Hw (sentences_of g) (in_map _ _ _ Hg)).
  apply in_groups in Hg.
  pose proof (group_tidy text min_chars max_chars g Hg) as Ht.
  rewrite chunk_text_join by exact Ht.
  destruct g as [|e g]; [reflexivity|].
  rewrite resplit by (try discriminate; assumption).
  apply filter_nonblank_tidy, Ht.
Qed.

End ResplitFacts.

(** ** The claims *)

Import Py StripFacts ShapeFacts NormalizeFacts SplitFacts PackFacts.
Import ChunkFacts ReplaceFacts BlankFacts JoinFacts TagFacts ResplitFacts.

(** *** Step 1 *)

(** C1 (the code departs from the claim).  The claim: curly double and
    single quotes are replaced by the straight ASCII quotes, so the text
    [She said "hello"] written with U+201C and U+201D normalizes to the
    same text with straight double quotes.  The table of the source has
    no curly quote among its keys (its quote keys are the straight double
    quote and a seven-character string), so the curly quotes reach the
    character filter and are deleted: the result is [She said hello]. *)
Theorem curly_quotes_dropped :
  normalize she_said_curly = of_string "She said hello"%string
  /\ normalize she_said_curly <> she_said_straight.
Proof.
  split; vm_compute; [reflexivity | discriminate].
Qed.

(** C6 (the code departs from the claim).  The claim: normalization is
    idempotent.  The seven-character key of the table can be produced by
    a replacement: in [: ": "'", ", x] the inner occurrence is replaced by
    an apostrophe, which leaves the key followed by [x]; a second pass
    replaces that occurrence and gives ['x]. *)
Theorem normalize_twice_differs :
  normalize nested_key = garbled_key ++ of_string "x"%string
  /\ normalize (normalize nested_key) = [39%N] ++ of_string "x"%string
  /\ normalize (normalize nested_key) <> normalize nested_key.
Proof.
  split; [|split]; vm_compute; [reflexivity | reflexivity | discriminate].
Qed.

(** C5.  When the normalized text is empty, the function returns the
    empty string, whatever the bounds. *)
Theorem empty_output text min_chars max_chars :
  normalize text = [] ->
  sanitize_and_prepare_text_for_llm text min_chars max_chars = [].
Proof.
  intros H. unfold sanitize_and_prepare_text_for_llm, chunks.
  rewrite H. reflexivity.
Qed.

Lemma empty_output_witness :
  normalize blank_input = []
  /\ sanitize_and_prepare_text_for_llm blank_input 100 300 = [].
Proof.
  split; [vm_compute; reflexivity|].
  apply empty_output. vm_compute. reflexivity.
Defined.

(** Scenario 1, and the inputs made of white space and deleted
    characters only. *)
Example empty_input min_chars max_chars :
  sanitize_and_prepare_text_for_llm [] min_chars max_chars = [].
Proof. reflexivity. Qed.

Lemma removable_output text min_chars max_chars :
  forallb removable text = true ->
  sanitize_and_prepare_text_for_llm text min_chars max_chars = [].
Proof.
  intros H. unfold sanitize_and_prepare_text_for_llm, chunks.
  rewrite (removable_normalize text H). reflexivity.
Qed.

(** *** Step 3 *)

Lemma chunks_of_groups text min_chars max_chars :
  chunks text min_chars max_chars
  = map (fun g => Py.join [SP] (sentences_of g))
        (groups text min_chars max_chars)
  /\ concat (map sentences_of (groups text min_chars max_chars))
     = filter nonblank (Py.split_sentences (normalize text)).
Proof.
  split; [|apply groups_conservation].
  rewrite <- groups_chunks. apply map_ext_in. intros g Hg.
  apply chunk_text_join. eapply group_tidy, in_groups, Hg.
Qed.

(** C2.  The emitted chunks are the groups of a partition of the
    sentence sequence into consecutive runs, each chunk being the
    sentences of its group joined by single spaces: read in emission
    order, the sentences of the chunks are exactly the sentences of
    Step 2 that are not blank, none dropped, repeated, reordered or
    divided between two chunks.  The same holds of the chunk strings
    alone: splitting every chunk again as Step 2 does gives the sentence
    sequence back. *)
Theorem sentence_conservation text min_chars max_chars :
  chunks text min_chars max_chars
  = map (fun g => Py.join [SP] (sentences_of g))
        (groups text min_chars max_chars)
  /\ concat (map sentences_of (groups text min_chars max_chars))
     = filter nonblank (Py.split_sentences (normalize text))
  /\ concat (map (fun chunk => filter nonblank (Py.split_sentences chunk))
                 (chunks text min_chars max_chars))
     = filter nonblank (Py.split_sentences (normalize text)).
Proof.
  destruct (chunks_of_groups text min_chars max_chars) as [H1 H2].
  split; [exact H1|]. split; [exact H2|].
  rewrite <- H2, <- groups_chunks, map_map. f_equal.
  apply map_ext_in. intros g Hg.
  apply (chunk_resplit text min_chars max_chars g Hg).
Qed.

Lemma Forall_removelast (A : Type) (P : A -> Prop) l :
  Forall P l -> Forall P (removelast l).
Proof.
  induction 1 as [|x l Hx Hl IH]; [constructor|].
  simpl. destruct l; [constructor|]. constructor; assumption.
Qed.

Lemma loop_groups_min text min_chars max_chars :
  Forall (fun g => min_chars <= len (chunk_text g))
         (loop_groups text min_chars max_chars).
Proof. apply trace_closed_min. Qed.

Lemma loop_lines_min text min_chars max_chars :
  Forall (fun c => min_chars <= len c)
         (lines (pack min_chars max_chars (Py.split_sentences (normalize text)))).
Proof. rewrite <- loop_groups_lines. apply Forall_map, loop_groups_min. Qed.

(** C4.  Every chunk pushed inside the loop has at least [min_chars]
    characters; so has every emitted chunk but the last. *)
Theorem min_bound_policy text min_chars max_chars :
  Forall (fun c => min_chars <= len c)
         (lines (pack min_chars max_chars (Py.split_sentences (normalize text))))
  /\ Forall (fun c => min_chars <= len c)
            (removelast (chunks text min_chars max_chars)).
Proof.
  pose proof (loop_lines_min text min_chars max_chars) as H.
  split; [exact H|]. unfold chunks. cbv zeta.
  destruct (is_empty _).
  - apply Forall_removelast, H.
  - rewrite removelast_last. exact H.
Qed.

(** C7.  The function is defined by structural recursion over its input
    and every operation it uses is total on strings and integers, so it
    returns a string for every text and every pair of integer bounds: the
    newline-join of its groups of sentences.  With [max_chars <= 0] no
    sentence ever takes the fitting branch, and an accumulator is emitted
    inside the loop only once it has reached [min_chars]. *)
Theorem total_and_degenerate text min_chars max_chars :
  sanitize_and_prepare_text_for_llm text min_chars max_chars
  = Py.join [NL] (map (fun g => Py.join [SP] (sentences_of g))
                      (groups text min_chars max_chars))
  /\ (max_chars <= 0 ->
      Forall (fun g => Forall (fun e => tag_is Fit e = false) g)
             (groups text min_chars max_chars)
      /\ Forall (fun g => min_chars <= len (chunk_text g))
                (loop_groups text min_chars max_chars)).
Proof.
  split.
  - unfold sanitize_and_prepare_text_for_llm.
    rewrite (proj1 (chunks_of_groups text min_chars max_chars)).
    reflexivity.
  - intros Hmx. split; [|apply loop_groups_min].
    apply Forall_forall. intros g Hg. apply in_groups in Hg.
    pose proof (trace_never_fits min_chars max_chars
                  (Py.split_sentences (normalize text)) Hmx) as H.
    rewrite Forall_forall in H. apply H, Hg.
Qed.

Lemma total_and_degenerate_witness :
  0 <= 0
  /\ Forall (fun g => Forall (fun e => tag_is Fit e = false) g)
            (groups short_long_short 5 0)
  /\ Forall (fun g => 5 <= len (chunk_text g))
            (loop_groups short_long_short 5 0).
Proof.
  split; [lia|].
  apply (proj2 (total_and_degenerate short_long_short 5 0)). lia.
Defined.

(** Every emitted chunk holds printable characters only; with
    [min_chars >= 1] it is not empty either. *)
Lemma chunks_printable text min_chars max_chars :
  Forall (Forall (fun c => printable c = true)) (chunks text min_chars max_chars).
Proof.
  rewrite <- groups_chunks. apply Forall_map, Forall_forall. intros g Hg.
  apply chunk_text_printable. eapply group_printable, in_groups, Hg.
Qed.

Lemma printable_no_newline chunk :
  Forall (fun c => printable c = true) chunk -> ~ In NL chunk.
Proof.
  intros H Hin. rewrite Forall_forall in H. apply H in Hin. discriminate.
Qed.

Lemma chunks_nonempty text min_chars max_chars :
  1 <= min_chars ->
  Forall (fun c => c <> []) (chunks text min_chars max_chars).
Proof.
  intros Hmin.
  pose proof (loop_lines_min text min_chars max_chars) as H.
  assert (Forall (fun c : str => c <> [])
            (lines (pack min_chars max_chars
                      (Py.split_sentences (normalize text))))) as Hl.
  { eapply Forall_impl; [|exact H]. intros c Hc ->. unfold len in Hc.
    simpl in Hc. lia. }
  unfold chunks. cbv zeta. destruct (is_empty _) eqn:E; [exact Hl|].
  apply Forall_app. split; [exact Hl|]. constructor; [|constructor].
  intros E'. rewrite E' in E. discriminate.
Qed.

Lemma chunks_solid text min_chars max_chars :
  1 <= min_chars -> Forall solid (chunks text min_chars max_chars).
Proof.
  intros Hmin. pose proof (chunks_nonempty text min_chars max_chars Hmin) as Hn.
  pose proof (chunks_printable text min_chars max_chars) as Hp.
  rewrite Forall_forall in *. intros c Hc. split; [apply Hn, Hc|].
  apply printable_no_newline, Hp, Hc.
Qed.

(** C9.  With [min_chars >= 1] every emitted chunk is a non-empty string,
    and the returned string has no two consecutive newlines and neither
    begins nor ends with a newline. *)
Theorem no_empty_chunk text min_chars max_chars :
  1 <= min_chars ->
  let out := sanitize_and_prepare_text_for_llm text min_chars max_chars in
  Forall (fun c => c <> []) (chunks text min_chars max_chars)
  /\ (forall a b, out <> a ++ NL :: NL :: b)
  /\ (forall r, out <> NL :: r)
  /\ (forall r, out <> r ++ [NL]).
Proof.
  intros Hmin out. subst out. unfold sanitize_and_prepare_text_for_llm.
  pose proof (chunks_solid text min_chars max_chars Hmin) as Hs.
  split; [apply chunks_nonempty, Hmin|].
  split; [apply join_no_double_newline, Hs|].
  split; [apply join_no_leading_newline, Hs
         | apply join_no_trailing_newline, Hs].
Qed.

Lemma no_empty_chunk_witness :
  1 <= 5
  /\ Forall (fun c => c <> []) (chunks short_long_short 5 10)
  /\ (forall a b, sanitize_and_prepare_text_for_llm short_long_short 5 10
                  <> a ++ NL :: NL :: b)
  /\ (forall r, sanitize_and_prepare_text_for_llm short_long_short 5 10
                <> NL :: r)
  /\ (forall r, sanitize_and_prepare_text_for_llm short_long_short 5 10
                <> r ++ [NL]).
Proof.
  split; [lia|]. apply (no_empty_chunk short_long_short 5 10). lia.
Defined.

Lemma chunk_no_double_space text min_chars max_chars chunk :
  In chunk (chunks text min_chars max_chars) ->
  forall a b, chunk <> a ++ SP :: SP :: b.
Proof.
  rewrite <- groups_chunks. intros Hc. apply in_map_iff in Hc.
  destruct Hc as (g & <- & Hg). apply in_groups in Hg.
  destruct g as [|e g].
  - intros a b E. destruct a; discriminate.
  - apply tidy_no_double_space, chunk_text_tidy; [discriminate|].
    apply (group_tidy text min_chars max_chars), Hg.
Qed.

(** C10.  Every character of the returned string is printable ASCII
    (0x20-0x7E) or the newline separator, so no tab, carriage return or
    non-ASCII character is left; no chunk holds a newline and no chunk
    holds two consecutive spaces. *)
Theorem output_alphabet text min_chars max_chars :
  let out := sanitize_and_prepare_text_for_llm text min_chars max_chars in
  Forall (fun c => printable c = true \/ c = NL) out
  /\ ~ In TAB out /\ ~ In CR out /\ Forall (fun c => (c < 128)%N) out
  /\ Forall (fun chunk => ~ In NL chunk
                          /\ forall a b, chunk <> a ++ SP :: SP :: b)
            (chunks text min_chars max_chars).
Proof.
  intros out.
  assert (Forall (fun c => printable c = true \/ c = NL) out) as H.
  { subst out. unfold sanitize_and_prepare_text_for_llm.
    apply join_Forall; [right; reflexivity|].
    eapply Forall_impl; [|apply chunks_printable].
    intros chunk Hc. eapply Forall_impl; [|exact Hc]. simpl. auto. }
  split; [exact H|]. rewrite Forall_forall in H.
  split; [|split; [|split]].
  - intros Hin. apply H in Hin. destruct Hin; discriminate.
  - intros Hin. apply H in Hin. destruct Hin; discriminate.
  - apply Forall_forall. intros c Hin. apply H in Hin.
    destruct Hin as [Hp | ->]; [|reflexivity].
    apply printable_range in Hp. lia.
  - apply Forall_forall. intros chunk Hc. split.
    + pose proof (chunks_printable text min_chars max_chars) as Hp.
      rewrite Forall_forall in Hp. apply printable_no_newline, Hp, Hc.
    + eapply chunk_no_double_space, Hc.
Qed.

(** *** The upper bound *)

Lemma groups_bounded text min_chars max_chars g :
  In g (closed (trace min_chars max_chars (Py.split_sentences (normalize text)))
        ++ [open (trace min_chars max_chars
                    (Py.split_sentences (normalize text)))]) ->
  forced g = false ->
  g = [] \/ (g <> [] /\ len (chunk_text g) <= max_chars - 1)
  \/ exists s, g = [(Flush, s)] /\ max_chars <= len s.
Proof.
  intros Hg Hf.
  pose proof (trace_bounded min_chars max_chars
                (Py.split_sentences (normalize text))) as H.
  rewrite Forall_forall in H.
  destruct (H g Hg Hf) as [-> | [Hle | (s & -> & Hs)]]; [auto| |].
  - destruct g as [|e g]; [auto|]. right. left. split; [discriminate|].
    pose proof (chunk_text_shorter (e :: g)) as Hsh.
    assert (e :: g <> []) as Hne by discriminate. specialize (Hsh Hne). lia.
  - right. right. exists s. split; [reflexivity | lia].
Qed.

(** C3, as stated, fails: with bounds 5 and 10 the text
    [Aaaa. Bbbbbbbbbbbbbbbbbbbb. Cc.] gives three chunks; the second is
    the 21-character sentence alone, put into a fresh accumulator by the
    flush branch, never force-merged, and it is not the last chunk. *)
Lemma chunk_bound_counterexample :
  ~ (forall g, In g (removelast (groups short_long_short 5 10)) ->
               forced g = false -> len (chunk_text g) <= 10).
Proof.
  intros H.
  assert (In [(Flush, long_sentence)]
             (removelast (groups short_long_short 5 10))) as Hin
      by (vm_compute; auto).
  specialize (H _ Hin eq_refl). vm_compute in H. apply H. reflexivity.
Qed.

(** C3, amended.  Every emitted chunk is the sentences of its group
    joined by single spaces, so no sentence is cut.  A chunk that received
    no sentence through the force-merge branch has at most
    [max_chars - 1] characters, unless it is empty or is one sentence of
    [max_chars] characters or more that the flush branch put alone into a
    fresh accumulator.  A sentence longer than [max_chars] never enters
    through the fitting branch: either the flush branch makes it the
    first sentence of a new accumulator, or the force-merge branch
    appends it to an accumulator whose trimmed length is below
    [min_chars]. *)
Theorem chunk_bound_amended text min_chars max_chars g :
  In g (groups text min_chars max_chars) ->
  chunk_text g = Py.join [SP] (sentences_of g)
  /\ (forced g = false ->
      len (chunk_text g) <= max_chars - 1
      \/ g = []
      \/ exists s, g = [(Flush, s)] /\ chunk_text g = s /\ max_chars <= len s)
  /\ (forall pre b s post,
        g = pre ++ (b, s) :: post -> max_chars < len s ->
        (b = Flush /\ pre = [])
        \/ (b = Force /\ len (chunk_text pre) < min_chars)).
Proof.
  intros Hg. apply in_groups in Hg.
  pose proof (group_tidy text min_chars max_chars g Hg) as Ht.
  split; [apply chunk_text_join, Ht|]. split.
  - intros Hf.
    destruct (groups_bounded text min_chars max_chars g Hg Hf)
      as [-> | [[_ Hle] | (s & -> & Hs)]]; auto.
    right. right. exists s. repeat split; [|exact Hs].
    rewrite chunk_text_join by exact Ht. reflexivity.
  - intros pre b s post -> Hlong.
    pose proof (trace_well_tagged min_chars max_chars
                  (Py.split_sentences (normalize text))) as Hw.
    rewrite Forall_forall in Hw. specialize (Hw _ Hg).
    apply (well_tagged_at min_chars max_chars pre []) in Hw.
    simpl in Hw. destruct b; simpl in Hw.
    + exfalso. pose proof (len_nonneg (text_of pre)). lia.
    + left. auto.
    + right. split; [reflexivity | tauto].
Qed.

Lemma chunk_bound_amended_witness :
  In [(Flush, long_sentence)] (groups short_long_short 5 10)
  /\ chunk_text [(Flush, long_sentence)] = long_sentence
  /\ 10 <= len long_sentence.
Proof.
  assert (In [(Flush, long_sentence)] (groups short_long_short 5 10)) as Hin
      by (vm_compute; auto).
  split; [exact Hin|].
  destruct (chunk_bound_amended short_long_short 5 10 _ Hin) as (_ & H & _).
  destruct (H eq_refl) as [Hle | [E | (s & E & Hs)]].
  - exfalso. vm_compute in Hle. apply Hle. reflexivity.
  - discriminate.
  - injection E as <-. exact Hs.
Defined.

(** C8, as stated, fails, in two ways.  With both bounds 0 the text
    [Hi.] makes the loop push the empty accumulator before its only
    sentence: a chunk that received nothing through the force-merge
    branch, of length 0, above [max_chars - 1 = -1].  With bounds 5 and
    10 the text [Aaaa. Bbbbbbbbbbbbbbbbbbbb. Cc.] makes the loop push the
    21-character sentence alone, put into a fresh accumulator by the
    flush branch and never force-merged: 21 is above [max_chars - 1 = 9]. *)
Lemma fit_bound_counterexample :
  ~ (forall g, In g (loop_groups hi 0 0) ->
               forced g = false -> len (chunk_text g) <= 0 - 1)
  /\ ~ (forall g, In g (loop_groups short_long_short 5 10) ->
                  forced g = false -> len (chunk_text g) <= 10 - 1).
Proof.
  split; intros H.
  - assert (In [] (loop_groups hi 0 0)) as Hin by (vm_compute; auto).
    specialize (H _ Hin eq_refl). vm_compute in H. apply H. reflexivity.
  - assert (In [(Flush, long_sentence)]
               (loop_groups short_long_short 5 10)) as Hin
        by (vm_compute; auto).
    specialize (H _ Hin eq_refl). vm_compute in H. apply H. reflexivity.
Qed.

(** C8, amended.  A chunk pushed inside the loop that received no
    sentence through the force-merge branch has at most [max_chars - 1]
    characters (the test counted the joining space that [strip]
    removes), unless it is empty or is one sentence of [max_chars]
    characters or more that the flush branch put alone into a fresh
    accumulator. *)
Theorem fit_bound_amended text min_chars max_chars g :
  In g (loop_groups text min_chars max_chars) ->
  forced g = false ->
  len (chunk_text g) <= max_chars - 1
  \/ g = []
  \/ exists s, g = [(Flush, s)] /\ chunk_text g = s /\ max_chars <= len s.
Proof.
  intros Hg Hf.
  apply (in_loop_groups text min_chars max_chars) in Hg.
  pose proof (group_tidy text min_chars max_chars g Hg) as Ht.
  destruct (groups_bounded text min_chars max_chars g Hg Hf)
    as [-> | [[_ Hle] | (s & -> & Hs)]]; auto.
  right. right. exists s. repeat split; [|exact Hs].
  rewrite chunk_text_join by exact Ht. reflexivity.
Qed.

Lemma fit_bound_amended_witness :
  let g := [(Flush, of_string "A."%string); (Fit, of_string "B."%string);
            (Fit, of_string "C."%string)] in
  In g (loop_groups abc_four_times 5 10)
  /\ forced g = false
  /\ len (chunk_text g) <= 10 - 1.
Proof.
  intros g.
  assert (In g (loop_groups abc_four_times 5 10)) as Hin
      by (vm_compute; auto).
  split; [exact Hin|]. split; [reflexivity|].
  destruct (fit_bound_amended abc_four_times 5 10 g Hin eq_refl)
    as [Hle | [E | (s & E & _)]]; [exact Hle | discriminate | discriminate].
Defined.

(** ** Further properties of the chunker *)

Module JoinSplitFacts.
Import Py StripFacts ShapeFacts NormalizeFacts SplitFacts ChunkFacts.

Lemma join_cons_piece sep c ps :
  ps <> [] -> join sep (cons_piece c ps) = c :: join sep ps.
Proof.
  destruct ps as [|p [|q r]]; intros H; [contradiction | reflexivity | reflexivity].
Qed.

Lemma join_nil_cons sep ps : ps <> [] -> join sep ([] :: ps) = sep ++ join sep ps.
Proof. destruct ps; [contradiction | reflexivity]. Qed.

(** Joining the pieces of Step 2 with single spaces undoes the split,
    on a string whose white space is single spaces. *)
Lemma join_split_from s : forall lb b,
  Forall (fun c => printable c = true) s ->
  agrees lb b -> scan b s = Some false ->
  join [SP] (split_from lb s) = s.
Proof.
  induction s as [|c s IH]; intros lb b Hp Hag H; [reflexivity|].
  inversion Hp as [|? ? Hc Hs]; subst. simpl in H |- *.
  destruct (isspace c) eqn:E.
  - destruct b; [discriminate|].
    rewrite (printable_space_is_SP c Hc E) in *.
    destruct lb; simpl in Hag; try discriminate.
    + rewrite join_cons_piece by apply split_from_nonempty.
      rewrite (IH Plain true Hs I H). reflexivity.
    + rewrite join_nil_cons by apply split_from_nonempty.
      rewrite (IH InDelimiter true Hs eq_refl H). reflexivity.
  - rewrite join_cons_piece by apply split_from_nonempty.
    erewrite IH; [reflexivity | exact Hs | | exact H].
    destruct (is_terminal c); simpl; auto.
Qed.

Lemma join_split_normalize text :
  join [SP] (split_sentences (normalize text)) = normalize text.
Proof.
  destruct (normalize_shape text) as [E | Ht]; [rewrite E; reflexivity|].
  apply (join_split_from _ Plain true);
    [apply normalize_printable | exact I | exact Ht].
Qed.

Lemma join_app sep (a b : list str) :
  a <> [] -> b <> [] -> join sep (a ++ b) = join sep a ++ sep ++ join sep b.
Proof.
  induction a as [|p [|q r] IH]; intros Ha Hb; [contradiction| |].
  - destruct b; [contradiction | reflexivity].
  - change (join sep ((p :: q :: r) ++ b))
      with (p ++ sep ++ join sep ((q :: r) ++ b)).
    rewrite IH by (try discriminate; assumption).
    change (join sep (p :: q :: r)) with (p ++ sep ++ join sep (q :: r)).
    rewrite <- !app_assoc. reflexivity.
Qed.

Lemma join_concat sep (gs : list (list str)) :
  Forall (fun g => g <> []) gs ->
  join sep (map (join sep) gs) = join sep (concat gs).
Proof.
  induction 1 as [|g gs Hg Hgs IH]; [reflexivity|].
  destruct gs as [|g' gs'].
  - simpl. rewrite app_nil_r. reflexivity.
  - change (join sep (map (join sep) (g :: g' :: gs')))
      with (join sep g ++ sep ++ join sep (map (join sep) (g' :: gs'))).
    rewrite IH.
    change (concat (g :: g' :: gs')) with (g ++ concat (g' :: gs')).
    rewrite join_app; [reflexivity | exact Hg |].
    inversion Hgs; subst. destruct g'; [contradiction | discriminate].
Qed.

Lemma join_nil_inv (ps : list str) :
  join [NL] ps = [] -> Forall (fun p => p = []) ps.
Proof.
  destruct ps as [|p [|q r]]; intros H.
  - constructor.
  - simpl in H. subst. repeat constructor.
  - exfalso. change (p ++ [NL] ++ join [NL] (q :: r) = []) in H.
    destruct p; discriminate.
Qed.

Lemma map_join f (ps : list str) :
  map f (join [NL] ps) = join [f NL] (map (map f) ps).
Proof.
  induction ps as [|p [|q r] IH]; [reflexivity | reflexivity |].
  change (join [NL] (p :: q :: r)) with (p ++ [NL] ++ join [NL] (q :: r)).
  rewrite !map_app, IH. reflexivity.
Qed.

Lemma newline_to_space_fixed s :
  Forall (fun c => printable c = true) s -> map newline_to_space s = s.
Proof.
  induction 1 as [|c s Hc _ IH]; [reflexivity|].
  simpl. rewrite IH. unfold newline_to_space.
  destruct (N.eqb_spec c NL) as [-> | _]; [discriminate | reflexivity].
Qed.

End JoinSplitFacts.

Module SingleChunkFacts.
Import Py StripFacts ShapeFacts NormalizeFacts SplitFacts PackFacts ChunkFacts.
Import JoinSplitFacts.

Lemma text_of_packed g : text_of g = packed (sentences_of g).
Proof.
  unfold text_of, packed, sentences_of. rewrite flat_map_concat_map.
  rewrite flat_map_concat_map, map_map. reflexivity.
Qed.

Lemma packed_app a b : packed (a ++ b) = packed a ++ packed b.
Proof. unfold packed. apply flat_map_app. Qed.

Lemma packed_join ps : ps <> [] -> packed ps = join [SP] ps ++ [SP].
Proof.
  induction ps as [|p [|q r] IH]; intros Hne; [contradiction| |].
  - simpl. rewrite app_nil_r. reflexivity.
  - change (packed (p :: q :: r)) with ((p ++ [SP]) ++ packed (q :: r)).
    rewrite IH by discriminate.
    change (join [SP] (p :: q :: r)) with (p ++ [SP] ++ join [SP] (q :: r)).
    rewrite <- !app_assoc. reflexivity.
Qed.

Section Bounds.

Variables min_chars max_chars : Z.

(** When all the sentences together fit [max_chars], or do not reach
    [min_chars], the loop never flushes. *)
Lemma no_flush ss :
  len (packed (filter nonblank ss)) <= max_chars
  \/ len (packed (filter nonblank ss)) <= min_chars ->
  closed (trace min_chars max_chars ss) = [].
Proof.
  induction ss as [|s ss IH] using rev_ind; intros H; [reflexivity|].
  rewrite filter_app, packed_app, len_app in H.
  pose proof (len_nonneg (packed (filter nonblank [s]))) as Hs.
  assert (closed (trace min_chars max_chars ss) = []) as Hc
      by (apply IH; lia).
  pose proof (trace_conservation min_chars max_chars ss) as Hcons.
  simpl in Hcons. rewrite Hc in Hcons. simpl in Hcons.
  rewrite trace_snoc. unfold trace_step.
  simpl in H. unfold nonblank in H at 2 4.
  destruct (is_empty (strip s)) eqn:Eb; simpl in H; [exact Hc|].
  rewrite app_nil_r, len_app in H. change (len [SP]) with 1 in H.
  rewrite text_of_packed, Hcons.
  destruct (Z.leb_spec (len (packed (filter nonblank ss)) + len s + 1)
                       max_chars) as [Hfit | Hover]; [exact Hc|].
  rewrite <- Hcons, <- text_of_packed.
  destruct (Z.leb_spec min_chars
              (len (strip (text_of (open (trace min_chars max_chars ss))))))
    as [Hmin | Hmin]; [|exact Hc].
  exfalso.
  pose proof (strip_length (text_of (open (trace min_chars max_chars ss)))) as Hl.
  assert (len (text_of (open (trace min_chars max_chars ss)))
          = len (packed (filter nonblank ss))) as El
      by (rewrite text_of_packed, Hcons; reflexivity).
  pose proof (len_nonneg s). unfold len in *. lia.
Qed.

End Bounds.

Lemma sentences_packed text :
  normalize text <> [] ->
  packed (sentences text) = normalize text ++ [SP].
Proof.
  intros Hne. rewrite sentences_all by assumption.
  rewrite packed_join by apply split_from_nonempty.
  rewrite join_split_normalize. reflexivity.
Qed.

Lemma single_chunk text min_chars max_chars :
  len (normalize text) + 1 <= max_chars \/ len (normalize text) < min_chars ->
  chunks text min_chars max_chars
  = if is_empty (normalize text) then [] else [normalize text].
Proof.
  intros H. destruct (normalize text) as [|c0 r0] eqn:E.
  - unfold chunks. rewrite E. reflexivity.
  - assert (normalize text <> []) as Hne by congruence.
    rewrite <- E in *. clear E.
    assert (is_empty (normalize text) = false) as Hf
        by (destruct (normalize text); [contradiction | reflexivity]).
    rewrite Hf.
    assert (closed (trace min_chars max_chars
                      (split_sentences (normalize text))) = []) as Hc.
    { apply no_flush. fold (sentences text).
      rewrite sentences_packed by assumption.
      rewrite len_app. change (len [SP]) with 1. lia. }
    pose proof (groups_conservation text min_chars max_chars) as Hcons.
    pose proof (groups_chunks text min_chars max_chars) as Hch.
    pose proof (fun g => group_tidy text min_chars max_chars g) as Ht.
    unfold groups in Hcons, Hch. rewrite Hc in *. cbn [app In] in *.
    set (o := open (trace min_chars max_chars
                      (split_sentences (normalize text)))) in *.
    assert (chunk_text o = normalize text) as Eo.
    { destruct (is_empty (chunk_text o)) eqn:Ee.
      - exfalso. simpl in Hcons.
        rewrite sentences_all in Hcons by assumption.
        symmetry in Hcons. revert Hcons. apply split_from_nonempty.
      - simpl in Hcons. rewrite app_nil_r in Hcons.
        rewrite chunk_text_join by (apply Ht; left; reflexivity).
        rewrite Hcons, sentences_all by assumption.
        apply join_split_normalize. }
    rewrite Eo, Hf in Hch. simpl in Hch. rewrite Eo in Hch.
    symmetry. exact Hch.
Qed.

End SingleChunkFacts.

Import JoinSplitFacts SingleChunkFacts.

(** X1.  Joining the sentences of Step 2 with single spaces gives the
    normalized text back: the split loses nothing but the delimiters,
    which are single spaces after Step 1. *)
Theorem split_join_roundtrip text :
  Py.join [SP] (Py.split_sentences (normalize text)) = normalize text.
Proof. apply join_split_normalize. Qed.

Lemma chunk_groups_nonempty text min_chars max_chars :
  1 <= min_chars ->
  Forall (fun ps : list str => ps <> [])
         (map sentences_of (groups text min_chars max_chars)).
Proof.
  intros Hmin. pose proof (chunks_nonempty text min_chars max_chars Hmin) as H.
  rewrite (proj1 (chunks_of_groups text min_chars max_chars)) in H.
  rewrite <- map_map in H. rewrite Forall_forall in *.
  intros ps Hps E. apply (H (Py.join [SP] ps)); [|rewrite E; reflexivity].
  apply in_map, Hps.
Qed.

Lemma join_chunks text min_chars max_chars :
  1 <= min_chars ->
  Py.join [SP] (chunks text min_chars max_chars) = normalize text.
Proof.
  intros Hmin.
  rewrite (proj1 (chunks_of_groups text min_chars max_chars)), <- map_map.
  rewrite join_concat by (apply chunk_groups_nonempty, Hmin).
  rewrite groups_conservation.
  destruct (normalize text) as [|c0 r0] eqn:E.
  - rewrite sentences_empty by assumption. reflexivity.
  - rewrite sentences_all by congruence. rewrite <- E.
    apply join_split_normalize.
Qed.

(** X2.  With [min_chars >= 1] the packing changes nothing but some spaces
    into newlines: the chunks joined by single spaces, or the returned
    string with its newlines turned back into spaces, are the normalized
    text. *)
Theorem chunks_spell_normalized text min_chars max_chars :
  1 <= min_chars ->
  Py.join [SP] (chunks text min_chars max_chars) = normalize text
  /\ map newline_to_space
         (sanitize_and_prepare_text_for_llm text min_chars max_chars)
     = normalize text.
Proof.
  intros Hmin. split; [apply join_chunks, Hmin|].
  unfold sanitize_and_prepare_text_for_llm. rewrite map_join.
  change (newline_to_space NL) with SP.
  replace (map (map newline_to_space) (chunks text min_chars max_chars))
    with (chunks text min_chars max_chars); [apply join_chunks, Hmin|].
  pose proof (chunks_printable text min_chars max_chars) as Hp.
  induction Hp as [|c cs Hc _ IH]; [reflexivity|].
  simpl. rewrite (newline_to_space_fixed c Hc), <- IH. reflexivity.
Qed.

Lemma chunks_spell_normalized_witness :
  1 <= 5
  /\ Py.join [SP] (chunks short_long_short 5 10) = normalize short_long_short
  /\ map newline_to_space
         (sanitize_and_prepare_text_for_llm short_long_short 5 10)
     = normalize short_long_short.
Proof.
  split; [lia|]. apply (chunks_spell_normalized short_long_short 5 10). lia.
Defined.

Lemma output_nonempty text min_chars max_chars :
  sanitize_and_prepare_text_for_llm text min_chars max_chars = [] ->
  normalize text = [].
Proof.
  intros H. unfold sanitize_and_prepare_text_for_llm in H.
  apply join_nil_inv in H. rewrite <- groups_chunks in H.
  rewrite Forall_map in H. rewrite Forall_forall in H.
  destruct (normalize text) as [|c0 r0] eqn:E; [reflexivity|]. exfalso.
  assert (normalize text <> []) as Hne by congruence.
  assert (sentences text = []) as Hs.
  { rewrite <- (groups_conservation text min_chars max_chars).
    apply concat_nil_Forall, Forall_map, Forall_forall.
    intros g Hg. destruct g as [|e g]; [reflexivity|]. exfalso.
    assert (tidy (chunk_text (e :: g))) as Ht.
    { apply chunk_text_tidy; [discriminate|].
      apply (group_tidy text min_chars max_chars), in_groups, Hg. }
    rewrite (H _ Hg) in Ht. discriminate. }
  rewrite sentences_all in Hs by assumption.
  revert Hs. apply split_from_nonempty.
Qed.

(** X3.  The returned string is empty exactly when the normalized text is,
    whatever the bounds: a text with any printable character in it always
    yields output. *)
Theorem output_empty_iff text min_chars max_chars :
  sanitize_and_prepare_text_for_llm text min_chars max_chars = []
  <-> normalize text = [].
Proof.
  split; [apply output_nonempty|].
  intros H. unfold sanitize_and_prepare_text_for_llm, chunks.
  rewrite H. reflexivity.
Qed.

(** X4.  A text whose normalized form, with one more character, fits
    [max_chars], or whose normalized form is shorter than [min_chars],
    comes out as that normalized form: one chunk, no newline. *)
Theorem short_text_unchanged text min_chars max_chars :
  len (normalize text) + 1 <= max_chars \/ len (normalize text) < min_chars ->
  sanitize_and_prepare_text_for_llm text min_chars max_chars = normalize text.
Proof.
  intros H. unfold sanitize_and_prepare_text_for_llm.
  rewrite (single_chunk text min_chars max_chars H).
  destruct (normalize text); reflexivity.
Qed.

Lemma short_text_unchanged_witness :
  (len (normalize short_long_short) + 1 <= 40
   \/ len (normalize short_long_short) < 5)
  /\ sanitize_and_prepare_text_for_llm short_long_short 5 40
     = normalize short_long_short.
Proof.
  assert (len (normalize short_long_short) + 1 <= 40
          \/ len (normalize short_long_short) < 5) as H
      by (left; vm_compute; discriminate).
  split; [exact H|]. apply (short_text_unchanged short_long_short 5 40 H).
Defined.

Module LengthFacts.
Import Py StripFacts.

Lemma startswith_length p : forall s,
  startswith p s = true -> (length p <= length s)%nat.
Proof.
  induction p as [|a p IH]; intros s H; simpl; [lia|].
  destruct s as [|b s]; simpl in H; [discriminate|].
  apply andb_true_iff in H. destruct H as [_ H]. apply IH in H. simpl. lia.
Qed.

Lemma replace_from_length old new :
  (length new <= length old)%nat ->
  forall s k,
    (length (replace_from old new k s) + Nat.min k (length s) <= length s)%nat.
Proof.
  intros Hlen. induction s as [|c s IH]; intros k; simpl; [lia|].
  destruct k as [|k].
  - destruct (startswith old (c :: s)) eqn:E.
    + apply startswith_length in E. simpl in E.
      specialize (IH (length old - 1)%nat). rewrite length_app. lia.
    + specialize (IH 0%nat). simpl. lia.
  - specialize (IH k). lia.
Qed.

Lemma replace_length a old' new s :
  (length new <= length (a :: old'))%nat ->
  (length (replace (a :: old') new s) <= length s)%nat.
Proof.
  intros H. pose proof (replace_from_length _ _ H s 0%nat) as Hl.
  unfold replace. lia.
Qed.

Lemma apply_replacements_length text :
  (length (apply_replacements text) <= length text)%nat.
Proof.
  unfold apply_replacements, replacements. cbn [fold_left].
  repeat (etransitivity; [apply replace_length; simpl; lia|]).
  reflexivity.
Qed.

Lemma sub_ws_length s : forall b, (length (sub_ws_from b s) <= length s)%nat.
Proof.
  induction s as [|c s IH]; intros b; simpl; [lia|].
  destruct (isspace c); [destruct b|]; simpl;
    match goal with |- context [sub_ws_from ?x s] => specialize (IH x) end; lia.
Qed.

Lemma normalize_length text : (length (normalize text) <= length text)%nat.
Proof.
  unfold normalize.
  etransitivity; [apply strip_length|].
  etransitivity; [apply sub_ws_length|].
  etransitivity; [apply filter_length_le|].
  apply apply_replacements_length.
Qed.

End LengthFacts.

Module DashFacts.
Import Py ReplaceFacts IdemFacts.

Lemma startswith_map (f : char -> char) old :
  (forall a c, In a old -> (a =? f c)%N = (a =? c)%N) ->
  forall s, startswith old (map f s) = startswith old s.
Proof.
  induction old as [|a old IH]; intros Hf s; [reflexivity|].
  destruct s as [|c s]; [reflexivity|]. simpl.
  rewrite (Hf a c) by (left; reflexivity).
  rewrite IH; [reflexivity|]. intros a' c' Hin. apply Hf. right. exact Hin.
Qed.

Lemma replace_from_map (f : char -> char) old new :
  (forall a c, In a old -> (a =? f c)%N = (a =? c)%N) ->
  map f new = new ->
  forall s k,
    replace_from old new k (map f s) = map f (replace_from old new k s).
Proof.
  intros Hf Hnew. induction s as [|c s IH]; intros k; [reflexivity|].
  cbn [map replace_from]. destruct k as [|k]; [|apply IH].
  change (f c :: map f s) with (map f (c :: s)).
  rewrite (startswith_map f old Hf).
  destruct (startswith old (c :: s)).
  - rewrite map_app, Hnew, IH. reflexivity.
  - cbn [map]. rewrite IH. reflexivity.
Qed.

Lemma replace_from_single a b s :
  replace_from [a] [b] 0 s = map (fun c => if (a =? c)%N then b else c) s.
Proof.
  induction s as [|c s IH]; [reflexivity|].
  cbn [replace_from startswith length Nat.sub map].
  destruct (a =? c)%N; simpl; rewrite IH; reflexivity.
Qed.

Lemma dashes_replaced s :
  replace [0x2013%N] [45%N] (replace [0x2014%N] [45%N] s)
  = map dash_to_hyphen s.
Proof.
  unfold replace. rewrite !replace_from_single, map_map.
  apply map_ext. intros c. unfold dash_to_hyphen.
  destruct (N.eqb_spec 0x2014 c) as [<- | H1]; [reflexivity|].
  rewrite (N.eqb_sym c 0x2014). destruct (N.eqb_spec 0x2014 c); [contradiction|].
  rewrite (N.eqb_sym c 0x2013). simpl. reflexivity.
Qed.

Lemma dash_to_hyphen_no_dash (d : char) s :
  d = 0x2014%N \/ d = 0x2013%N -> ~ In d (map dash_to_hyphen s).
Proof.
  intros Hd Hin. apply in_map_iff in Hin. destruct Hin as (c & E & _).
  unfold dash_to_hyphen in E.
  destruct (((c =? 0x2014) || (c =? 0x2013))%N) eqn:Ec.
  - destruct Hd; subst; discriminate.
  - apply orb_false_iff in Ec. destruct Ec as [E1 E2].
    apply N.eqb_neq in E1, E2. destruct Hd; subst; contradiction.
Qed.

Lemma dash_to_hyphen_key a c :
  In a garbled_key -> (a =? dash_to_hyphen c)%N = (a =? c)%N.
Proof.
  intros Hin. unfold dash_to_hyphen.
  destruct (((c =? 0x2014) || (c =? 0x2013))%N) eqn:Ec; [|reflexivity].
  apply orb_true_iff in Ec.
  assert (c = 0x2014 \/ c = 0x2013)%N as Hc
      by (destruct Ec as [Ec | Ec]; apply N.eqb_eq in Ec; auto).
  simpl in Hin.
  repeat (destruct Hin as [<- | Hin];
          [destruct Hc; subst; reflexivity|]).
  contradiction.
Qed.

Lemma replace_same a s : replace [a] [a] s = s.
Proof. apply replace_from_same. Qed.

Lemma replace_key_dashes s :
  replace garbled_key [39%N] (map dash_to_hyphen s)
  = map dash_to_hyphen (replace garbled_key [39%N] s).
Proof.
  apply (replace_from_map dash_to_hyphen garbled_key [39%N]
           dash_to_hyphen_key eq_refl).
Qed.

Lemma apply_replacements_dashes text :
  apply_replacements (map dash_to_hyphen text) = apply_replacements text.
Proof.
  unfold apply_replacements, replacements. cbn [fold_left].
  fold garbled_key. rewrite !replace_same, replace_key_dashes.
  rewrite (dashes_replaced (replace garbled_key [39%N] text)).
  rewrite (replace_absent 0x2014%N [] _ _)
    by (apply dash_to_hyphen_no_dash; auto).
  rewrite (replace_absent 0x2013%N [] _ _)
    by (apply dash_to_hyphen_no_dash; auto).
  reflexivity.
Qed.

End DashFacts.

Module RerunFacts.
Import Py StripFacts ShapeFacts NormalizeFacts ReplaceFacts IdemFacts.
Import ChunkFacts JoinFacts JoinSplitFacts.

Lemma startswith_fixed (f : char -> char) old :
  (forall a, In a old -> f a = a) ->
  forall s, startswith old s = true -> startswith old (map f s) = true.
Proof.
  induction old as [|a old IH]; intros Hf s H; [reflexivity|].
  destruct s as [|c s]; [discriminate|]. simpl in *.
  apply andb_true_iff in H. destruct H as [Hc Hs].
  apply N.eqb_eq in Hc. subst c. rewrite (Hf a) by (left; reflexivity).
  rewrite N.eqb_refl. simpl. apply IH; [|exact Hs].
  intros a' Hin. apply Hf. right. exact Hin.
Qed.

Lemma absent_map (f : char -> char) old s :
  (forall a, In a old -> f a = a) ->
  absent old (map f s) = true -> absent old s = true.
Proof.
  intros Hf. induction s as [|c s IH]; intros H; [reflexivity|].
  cbn [map absent] in H |- *. apply andb_true_iff in H. destruct H as [Hc Hs].
  rewrite (IH Hs), andb_true_r.
  destruct (startswith old (c :: s)) eqn:E; [|reflexivity].
  apply (startswith_fixed f old Hf) in E. cbn [map] in E.
  rewrite E in Hc. discriminate.
Qed.

Lemma newline_to_space_key a : In a garbled_key -> newline_to_space a = a.
Proof.
  simpl. intros H.
  repeat (destruct H as [<- | H]; [reflexivity|]). contradiction.
Qed.

Lemma replacements_fixed_ascii s :
  Forall (fun c => printable c = true \/ c = NL) s ->
  absent garbled_key s = true -> apply_replacements s = s.
Proof.
  intros Hp Hk.
  assert (forall d : char, printable d = false -> d <> NL -> ~ In d s) as Hn.
  { intros d Hd Hnl Hin. rewrite Forall_forall in Hp.
    destruct (Hp d Hin); congruence. }
  unfold apply_replacements, replacements. cbn [fold_left].
  unfold replace at 5. rewrite replace_from_same.
  unfold replace at 4. fold garbled_key.
  rewrite (replace_from_absent_key garbled_key _ s Hk).
  rewrite (replace_absent 0x2014%N [] _ s) by (apply Hn; [reflexivity | discriminate]).
  rewrite (replace_absent 0x2013%N [] _ s) by (apply Hn; [reflexivity | discriminate]).
  apply replace_absent, Hn; [reflexivity | discriminate].
Qed.

Lemma sub_remove_invalid_fixed_ascii s :
  Forall (fun c => printable c = true \/ c = NL) s -> sub_remove_invalid s = s.
Proof.
  unfold sub_remove_invalid. induction 1 as [|c s Hc _ IH]; [reflexivity|].
  simpl. rewrite IH.
  destruct Hc as [Hc | ->]; [rewrite (printable_kept c Hc)|]; reflexivity.
Qed.

Lemma sub_ws_newlines s : forall b,
  Forall (fun c => printable c = true \/ c = NL) s ->
  scan b s <> None -> sub_ws_from b s = map newline_to_space s.
Proof.
  induction s as [|c s IH]; intros b Hp H; [reflexivity|].
  inversion Hp as [|? ? Hc Hs]; subst. simpl in *.
  destruct (isspace c) eqn:E.
  - destruct b; [congruence|]. rewrite (IH true Hs H). f_equal.
    destruct Hc as [Hc | ->]; [|reflexivity].
    rewrite (printable_space_is_SP c Hc E). reflexivity.
  - rewrite (IH false Hs H). f_equal. unfold newline_to_space.
    destruct (N.eqb_spec c NL) as [-> | _]; [discriminate | reflexivity].
Qed.

Lemma join_newline_tidy ps : ps <> [] -> Forall tidy ps -> tidy (join [NL] ps).
Proof.
  induction ps as [|p [|q r] IH]; intros Hne H; [contradiction| |].
  - inversion H; assumption.
  - inversion H as [|? ? Hp Hr]; subst. rewrite join_cons_cons.
    unfold tidy in *. rewrite scan_app, Hp. simpl.
    apply IH; [discriminate | exact Hr].
Qed.

Lemma chunks_tidy text min_chars max_chars :
  1 <= min_chars -> Forall tidy (chunks text min_chars max_chars).
Proof.
  intros Hmin. pose proof (chunks_nonempty text min_chars max_chars Hmin) as Hn.
  rewrite <- groups_chunks in *. rewrite Forall_map in *.
  rewrite Forall_forall in *. intros g Hg.
  apply chunk_text_tidy.
  - intros ->. apply (Hn [] Hg). reflexivity.
  - apply (group_tidy text min_chars max_chars), in_groups, Hg.
Qed.

Lemma output_ascii text min_chars max_chars :
  Forall (fun c => printable c = true \/ c = NL)
         (sanitize_and_prepare_text_for_llm text min_chars max_chars).
Proof.
  unfold sanitize_and_prepare_text_for_llm.
  apply join_Forall; [right; reflexivity|].
  eapply Forall_impl; [|apply chunks_printable].
  intros chunk Hc. eapply Forall_impl; [|exact Hc]. simpl. auto.
Qed.

Lemma map_newline_output text min_chars max_chars :
  1 <= min_chars ->
  map newline_to_space
      (sanitize_and_prepare_text_for_llm text min_chars max_chars)
  = normalize text.
Proof.
  intros Hmin. unfold sanitize_and_prepare_text_for_llm. rewrite map_join.
  change (newline_to_space NL) with SP.
  replace (map (map newline_to_space) (chunks text min_chars max_chars))
    with (chunks text min_chars max_chars); [apply join_chunks, Hmin|].
  pose proof (chunks_printable text min_chars max_chars) as Hp.
  induction Hp as [|c cs Hc _ IH]; [reflexivity|].
  simpl. rewrite (newline_to_space_fixed c Hc), <- IH. reflexivity.
Qed.

(** Normalizing the returned string gives the normalized text again. *)
Lemma normalize_output text min_chars max_chars :
  1 <= min_chars ->
  absent garbled_key (normalize text) = true ->
  normalize (sanitize_and_prepare_text_for_llm text min_chars max_chars)
  = normalize text.
Proof.
  intros Hmin Hk.
  pose proof (map_newline_output text min_chars max_chars Hmin) as Hm.
  pose proof (output_ascii text min_chars max_chars) as Hp.
  set (out := sanitize_and_prepare_text_for_llm text min_chars max_chars) in *.
  assert (absent garbled_key out = true) as Hko.
  { apply (absent_map newline_to_space); [apply newline_to_space_key|].
    rewrite Hm. exact Hk. }
  unfold normalize at 1.
  rewrite (replacements_fixed_ascii out Hp Hko).
  rewrite (sub_remove_invalid_fixed_ascii out Hp).
  destruct (chunks text min_chars max_chars) as [|c0 cs] eqn:Ec.
  - assert (out = []) as -> by (unfold out, sanitize_and_prepare_text_for_llm;
                                 rewrite Ec; reflexivity).
    rewrite <- Hm. reflexivity.
  - assert (tidy out) as Ht.
    { unfold out, sanitize_and_prepare_text_for_llm.
      apply join_newline_tidy; [rewrite Ec; discriminate|].
      apply chunks_tidy, Hmin. }
    unfold sub_collapse_ws. rewrite sub_ws_newlines.
    + rewrite Hm. destruct (normalize_shape text) as [-> | Hn];
        [reflexivity | apply tidy_strip, Hn].
    + exact Hp.
    + rewrite (tidy_scan_false out Ht). discriminate.
Qed.

Lemma same_normalized a b min_chars max_chars :
  normalize a = normalize b ->
  sanitize_and_prepare_text_for_llm a min_chars max_chars
  = sanitize_and_prepare_text_for_llm b min_chars max_chars.
Proof.
  intros H. unfold sanitize_and_prepare_text_for_llm, chunks.
  rewrite H. reflexivity.
Qed.

End RerunFacts.

Import LengthFacts DashFacts RerunFacts.

(** X5.  Step 1 never lengthens a text: every replacement puts one character
    in the place of one or more, and the other passes only delete. *)
Theorem normalize_no_longer text : len (normalize text) <= len text.
Proof.
  pose proof (normalize_length text). unfold len. lia.
Qed.

(** X6.  With [min_chars >= 1] the returned string has exactly as many
    characters as the normalized text, hence no more than the input. *)
Theorem output_length text min_chars max_chars :
  1 <= min_chars ->
  len (sanitize_and_prepare_text_for_llm text min_chars max_chars)
  = len (normalize text)
  /\ len (sanitize_and_prepare_text_for_llm text min_chars max_chars)
     <= len text.
Proof.
  intros Hmin.
  assert (len (sanitize_and_prepare_text_for_llm text min_chars max_chars)
          = len (normalize text)) as E.
  { rewrite <- (map_newline_output text min_chars max_chars Hmin).
    unfold len. rewrite length_map. reflexivity. }
  split; [exact E|]. rewrite E.
  pose proof (normalize_length text). unfold len. lia.
Qed.

Lemma output_length_witness :
  1 <= 5
  /\ len (sanitize_and_prepare_text_for_llm short_long_short 5 10)
     = len (normalize short_long_short)
  /\ len (sanitize_and_prepare_text_for_llm short_long_short 5 10)
     <= len short_long_short.
Proof.
  split; [lia|]. apply (output_length short_long_short 5 10). lia.
Defined.

(** X7.  Em dashes and en dashes count as hyphens wherever they stand: a text
    and the same text with its dashes written as hyphens normalize to the
    same string and give the same chunks. *)
Theorem dashes_as_hyphens text min_chars max_chars :
  normalize (map dash_to_hyphen text) = normalize text
  /\ sanitize_and_prepare_text_for_llm (map dash_to_hyphen text)
                                       min_chars max_chars
     = sanitize_and_prepare_text_for_llm text min_chars max_chars.
Proof.
  assert (normalize (map dash_to_hyphen text) = normalize text) as E
      by (unfold normalize; rewrite apply_replacements_dashes; reflexivity).
  split; [exact E | apply same_normalized, E].
Qed.

(** X8.  A text that is already clean goes through Step 1 unchanged: printable
    ASCII, no white space at either end, single spaces inside, and no
    occurrence of the seven-character key of the table. *)
Theorem clean_text_fixed s :
  Forall (fun c => printable c = true) s ->
  tidy s ->
  absent garbled_key s = true ->
  normalize s = s.
Proof.
  intros Hp Ht Hk. apply IdemFacts.normalize_fixed; auto.
Qed.

Lemma clean_text_fixed_witness :
  Forall (fun c => printable c = true) short_long_short
  /\ tidy short_long_short
  /\ absent garbled_key short_long_short = true
  /\ normalize short_long_short = short_long_short.
Proof.
  assert (Forall (fun c => printable c = true) short_long_short) as Hp
      by (apply Forall_forall; intros c Hc; vm_compute in Hc;
          repeat (destruct Hc as [<- | Hc]; [reflexivity|]); contradiction).
  assert (tidy short_long_short) as Ht by (vm_compute; reflexivity).
  assert (absent garbled_key short_long_short = true) as Hk
      by (vm_compute; reflexivity).
  split; [exact Hp|]. split; [exact Ht|]. split; [exact Hk|].
  apply (clean_text_fixed short_long_short Hp Ht Hk).
Defined.

(** X9.  The returned string can be fed to the function again, with the same
    or other bounds: the result is what the original text gives with
    those bounds.  In particular the function is idempotent.  This needs
    [min_chars >= 1] for the first run and a normalized text without the
    seven-character key of the table. *)
Theorem rechunk_output text min_chars max_chars min_chars' max_chars' :
  1 <= min_chars ->
  absent garbled_key (normalize text) = true ->
  sanitize_and_prepare_text_for_llm
    (sanitize_and_prepare_text_for_llm text min_chars max_chars)
    min_chars' max_chars'
  = sanitize_and_prepare_text_for_llm text min_chars' max_chars'.
Proof.
  intros Hmin Hk. apply same_normalized, normalize_output; assumption.
Qed.

Lemma rechunk_output_witness :
  1 <= 5
  /\ absent garbled_key (normalize short_long_short) = true
  /\ sanitize_and_prepare_text_for_llm
       (sanitize_and_prepare_text_for_llm short_long_short 5 10) 100 300
     = sanitize_and_prepare_text_for_llm short_long_short 100 300.
Proof.
  split; [lia|]. split; [vm_compute; reflexivity|].
  apply (rechunk_output short_long_short 5 10 100 300);
    [lia | vm_compute; reflexivity].
Defined.

(** ** Properties of the command line *)

Module CliFacts.
Import Py Cli ChunkFacts JoinFacts RerunFacts.

Lemma requests_app a b : requests (a ++ b) = requests a ++ requests b.
Proof.
  induction a as [|[] a IH]; simpl; rewrite ?IH; reflexivity.
Qed.

Lemma fst_bind {A B} (m : M A) (k : A -> M B) :
  fst (bind m k)
  = fst m ++ match snd m with
             | Returns a => fst (k a)
             | Raises _ => []
             end.
Proof.
  destruct m as [t [a | e]]; simpl.
  - destruct (k a). reflexivity.
  - rewrite app_nil_r. reflexivity.
Qed.

Lemma snd_bind {A B} (m : M A) (k : A -> M B) :
  snd (bind m k)
  = match snd m with
    | Returns a => snd (k a)
    | Raises e => Raises e
    end.
Proof.
  destruct m as [t [a | e]]; simpl; [destruct (k a)|]; reflexivity.
Qed.

(** The head of [split_on]: the longest prefix without the separator. *)
Lemma split_on_nonempty sep s : split_on sep s <> [].
Proof.
  induction s as [|c s IH]; simpl; [discriminate|].
  destruct (c =? sep)%N; [discriminate|].
  destruct (split_on sep s); [contradiction | discriminate].
Qed.

Lemma split_on_head sep s :
  let stem := hd [] (split_on sep s) in
  ~ In sep stem /\ (s = stem \/ exists rest, s = stem ++ sep :: rest).
Proof.
  induction s as [|c s IH]; simpl.
  - split; [tauto | left; reflexivity].
  - destruct (N.eqb_spec c sep) as [-> | Hne]; simpl.
    + split; [tauto | right; exists s; reflexivity].
    + pose proof (split_on_nonempty sep s) as Hn.
      destruct (split_on sep s) as [|p ps]; [contradiction|].
      simpl in *. destruct IH as [Hno Hs]. split.
      * intros [E | Hin]; [congruence | contradiction].
      * destruct Hs as [-> | (rest & ->)]; [left | right; exists rest];
          reflexivity.
Qed.

Lemma from_file_result w file_path :
  requests (fst (from_file w file_path)) = []
  /\ match snd (from_file w file_path) with
     | Returns (Some (text_content, out_name)) =>
         settled w file_path text_content out_name
     | _ => True
     end.
Proof.
  destruct file_path as [path|]; [|simpl; auto].
  unfold from_file, read_file.
  destruct path as [|c path]; [simpl; auto|]. cbn [is_empty].
  destruct (open_and_read w (c :: path)) as [content | []] eqn:E;
    simpl; split; auto.
  right. exists (c :: path). repeat split; [discriminate | exact E].
Qed.

Lemma requests_bind {A B} (m : M A) (k : A -> M B) :
  requests (fst (bind m k))
  = requests (fst m) ++ match snd m with
                        | Returns a => requests (fst (k a))
                        | Raises _ => []
                        end.
Proof.
  rewrite fst_bind, requests_app. destruct (snd m); reflexivity.
Qed.

Lemma main_requests_eq w file_path :
  requests (fst (main w file_path))
  = match load_model w model_name
            (if cuda_is_available w then of_string "cuda"%string
             else of_string "cpu"%string) with
    | Raises _ => []
    | Returns _ =>
        match snd (from_file w file_path) with
        | Raises _ => []
        | Returns read =>
            let processed_text :=
              sanitize_and_prepare_text_for_llm (fst (chosen read)) 100 300 in
            if is_empty processed_text then []
            else [(processed_text,
                   snd (chosen read) ++ of_string ".wav"%string)]
        end
    end.
Proof.
  unfold main.
  rewrite requests_bind. cbn [print fst snd requests app].
  rewrite requests_bind. cbn [print fst snd requests app].
  rewrite requests_bind. unfold call at 1 2. cbn [fst snd requests app].
  destruct (load_model w model_name _) as [[] | e]; [|reflexivity].
  rewrite requests_bind.
  rewrite (proj1 (from_file_result w file_path)). cbn [app].
  destruct (snd (from_file w file_path)) as [read | e]; [|reflexivity].
  rewrite requests_bind.
  assert (exists t, (match read with
                     | Some found => ret found
                     | None =>
                         print (of_string "Using example text..."%string) ;;
                         ret (example_text, of_string "example_output"%string)
                     end) = (t, Returns (chosen read)) /\ requests t = [])
    as (t & -> & Ht)
      by (destruct read as [found|]; eexists; split; reflexivity).
  cbn [fst snd]. rewrite Ht. cbn [app].
  destruct (chosen read) as [text_content out_name]. cbn [fst snd].
  destruct (is_empty _); [reflexivity|].
  rewrite requests_bind. cbn [print fst snd requests app].
  rewrite requests_bind. cbn [print fst snd requests app].
  rewrite requests_bind. unfold call. cbn [fst snd requests app].
  destruct (tts_to_file w _ _) as [[] | e]; reflexivity.
Qed.

Lemma from_file_read w (path text_content : str) :
  path <> [] -> open_and_read w path = Returns text_content ->
  from_file w (Some path)
  = ([Print (of_string "Processing file: "%string ++ path)],
     Returns (Some (text_content, hd [] (split_on DOT path)))).
Proof.
  intros Hne E. unfold from_file, read_file.
  destruct path as [|c path]; [contradiction|]. cbn [is_empty].
  rewrite E. reflexivity.
Qed.

Lemma from_file_fallback w (path : str) e :
  open_and_read w path = Raises e -> is_os_error e = true ->
  requests (fst (from_file w (Some path))) = []
  /\ snd (from_file w (Some path)) = Returns None.
Proof.
  intros E He. unfold from_file, read_file.
  destruct path as [|c path]; [split; reflexivity|]. cbn [is_empty].
  rewrite E. destruct e; try discriminate; split; reflexivity.
Qed.

Lemma from_file_other w (path : str) e :
  path <> [] -> open_and_read w path = Raises e -> is_os_error e = false ->
  from_file w (Some path) = ([], Raises e).
Proof.
  intros Hne E He. unfold from_file, read_file.
  destruct path as [|c path]; [contradiction|]. cbn [is_empty].
  rewrite E. destruct e; try discriminate; reflexivity.
Qed.

Lemma sanitize_nil text min_chars max_chars :
  normalize text = [] ->
  sanitize_and_prepare_text_for_llm text min_chars max_chars = [].
Proof.
  intros H. unfold sanitize_and_prepare_text_for_llm, chunks.
  rewrite H. reflexivity.
Qed.

Lemma example_output_no_dot : ~ In DOT (of_string "example_output"%string).
Proof.
  intros H. vm_compute in H.
  repeat (destruct H as [H | H]; [discriminate|]). contradiction.
Qed.

Lemma bind_print {B} line (k : unit -> M B) :
  bind (print line) k = let (t, r) := k tt in (Print line :: t, r).
Proof. reflexivity. Qed.

Lemma bind_call_returns {A B} ev (a : A) (k : A -> M B) :
  bind (call ev (Returns a)) k = let (t, r) := k a in (ev :: t, r).
Proof. reflexivity. Qed.

Lemma bind_returns {A B} t (a : A) (k : A -> M B) :
  bind (t, Returns a) k = let (t', r) := k a in (t ++ t', r).
Proof. reflexivity. Qed.

Lemma bind_raises {A B} t e (k : A -> M B) :
  bind (t, Raises e) k = (t, Raises e).
Proof. reflexivity. Qed.

End CliFacts.

Import Cli CliFacts.

(** X10.  Whatever the world answers, [main] asks for at most one synthesis,
    never with an empty text: the text holds printable ASCII and newlines
    only, with no empty line and no newline at either end, and the file
    name is a stem without a dot followed by [.wav]. *)
Theorem synthesis_request_well_formed w file_path text file :
  In (text, file) (requests (fst (main w file_path))) ->
  requests (fst (main w file_path)) = [(text, file)]
  /\ text <> []
  /\ Forall (fun c => printable c = true \/ c = NL) text
  /\ (forall a b, text <> a ++ NL :: NL :: b)
  /\ (forall r, text <> NL :: r)
  /\ (forall r, text <> r ++ [NL])
  /\ exists stem, file = stem ++ of_string ".wav"%string /\ ~ In DOT stem.
Proof.
  rewrite main_requests_eq.
  destruct (load_model w model_name _) as [[] | e]; [|contradiction].
  pose proof (from_file_result w file_path) as [_ Hs].
  destruct (snd (from_file w file_path)) as [read | e]; [|contradiction].
  cbv zeta.
  destruct (is_empty (sanitize_and_prepare_text_for_llm
                        (fst (chosen read)) 100 300)) eqn:Ee;
    [contradiction|].
  intros [E | []]. injection E as <- <-.
  split; [reflexivity|].
  split; [intros E; rewrite E in Ee; discriminate|].
  split; [apply output_ascii|].
  assert (Forall solid (chunks (fst (chosen read)) 100 300)) as Hsol
      by (apply chunks_solid; lia).
  unfold sanitize_and_prepare_text_for_llm.
  split; [apply join_no_double_newline, Hsol|].
  split; [apply join_no_leading_newline, Hsol|].
  split; [apply join_no_trailing_newline, Hsol|].
  exists (snd (chosen read)). split; [reflexivity|].
  destruct read as [[text_content out_name]|]; simpl.
  - destruct Hs as [[_ ->] | (path & _ & _ & _ & ->)].
    + apply example_output_no_dot.
    + apply (split_on_head DOT path).
  - apply example_output_no_dot.
Qed.

Lemma main_outcome_eq w file_path :
  snd (main w file_path)
  = match load_model w model_name (device_name w) with
    | Raises e => Raises e
    | Returns _ =>
        match snd (from_file w file_path) with
        | Raises e => Raises e
        | Returns read =>
            let processed_text :=
              sanitize_and_prepare_text_for_llm (fst (chosen read)) 100 300 in
            if is_empty processed_text then Returns tt
            else
              match tts_to_file w processed_text
                      (snd (chosen read) ++ of_string ".wav"%string) with
              | Returns _ => Returns tt
              | Raises e => Raises e
              end
        end
    end.
Proof.
  unfold main, device_name.
  rewrite snd_bind. cbn [print snd].
  rewrite snd_bind. cbn [print snd].
  rewrite snd_bind. unfold call at 1. cbn [snd].
  destruct (load_model w model_name _) as [[] | e]; [|reflexivity].
  rewrite snd_bind.
  destruct (snd (from_file w file_path)) as [read | e]; [|reflexivity].
  rewrite snd_bind.
  assert (exists t, (match read with
                     | Some found => ret found
                     | None =>
                         print (of_string "Using example text..."%string) ;;
                         ret (example_text, of_string "example_output"%string)
                     end) = (t, Returns (chosen read)))
    as (t & ->) by (destruct read as [found|]; eexists; reflexivity).
  cbn [snd].
  destruct (chosen read) as [text_content out_name]. cbn [fst snd].
  destruct (is_empty _); [reflexivity|].
  rewrite snd_bind. cbn [print snd].
  rewrite snd_bind. cbn [print snd].
  rewrite snd_bind. unfold call. cbn [snd].
  destruct (tts_to_file w _ _) as [[] | e]; reflexivity.
Qed.

(** X11.  When the file cannot be opened or read for a reason of the operating
    system (not found, no permission, a directory, ...), [main] goes on
    with the example text: it asks for the same synthesis, and ends the
    same way, as a run without a file. *)
Theorem read_failure_falls_back w (path : str) e :
  open_and_read w path = Raises e ->
  is_os_error e = true ->
  requests (fst (main w (Some path))) = requests (fst (main w None))
  /\ snd (main w (Some path)) = snd (main w None).
Proof.
  intros E He. destruct (from_file_fallback w path e E He) as [_ Hs].
  rewrite !main_requests_eq, !main_outcome_eq, Hs. split; reflexivity.
Qed.

Lemma read_failure_falls_back_witness :
  open_and_read missing_file_world (of_string "story.txt"%string)
  = Raises (FileNotFoundError (of_string "No such file or directory"%string))
  /\ is_os_error
       (FileNotFoundError (of_string "No such file or directory"%string))
     = true
  /\ requests (fst (main missing_file_world (Some (of_string "story.txt"%string))))
     = requests (fst (main missing_file_world None))
  /\ snd (main missing_file_world (Some (of_string "story.txt"%string)))
     = snd (main missing_file_world None).
Proof.
  split; [reflexivity|]. split; [reflexivity|].
  apply (read_failure_falls_back missing_file_world
           (of_string "story.txt"%string) _ eq_refl eq_refl).
Defined.

(** X12.  A file that is read and has content is synthesized under its own
    name: the path up to its first dot, followed by [.wav].  The text is
    the file's content chunked with the default bounds 100 and 300. *)
Theorem file_is_synthesized w (path text_content : str) :
  path <> [] ->
  open_and_read w path = Returns text_content ->
  load_model w model_name (device_name w) = Returns tt ->
  normalize text_content <> [] ->
  exists stem,
    ~ In DOT stem
    /\ (path = stem \/ exists rest, path = stem ++ DOT :: rest)
    /\ requests (fst (main w (Some path)))
       = [(sanitize_and_prepare_text_for_llm text_content 100 300,
           stem ++ of_string ".wav"%string)].
Proof.
  intros Hne E Hload Hn.
  exists (hd [] (split_on DOT path)).
  destruct (split_on_head DOT path) as [Hno Hp].
  split; [exact Hno|]. split; [exact Hp|].
  rewrite main_requests_eq. fold (device_name w). rewrite Hload.
  rewrite (from_file_read w path text_content Hne E). cbn [snd fst chosen].
  cbv zeta.
  destruct (is_empty _) eqn:Ee; [|reflexivity].
  exfalso. apply Hn, (output_nonempty text_content 100 300).
  destruct (sanitize_and_prepare_text_for_llm text_content 100 300);
    [reflexivity | discriminate].
Qed.

Lemma file_is_synthesized_witness :
  exists stem,
    ~ In DOT stem
    /\ (of_string "./story.txt"%string = stem
        \/ exists rest, of_string "./story.txt"%string = stem ++ DOT :: rest)
    /\ requests (fst (main story_world (Some (of_string "./story.txt"%string))))
       = [(sanitize_and_prepare_text_for_llm short_long_short 100 300,
           stem ++ of_string ".wav"%string)].
Proof.
  apply (file_is_synthesized story_world (of_string "./story.txt"%string)
           short_long_short).
  - discriminate.
  - reflexivity.
  - reflexivity.
  - vm_compute. discriminate.
Defined.

(** X13.  A file that is read but holds nothing the normalization keeps is
    reported and not synthesized; the run ends normally. *)
Theorem blank_file_not_synthesized w (path text_content : str) :
  path <> [] ->
  open_and_read w path = Returns text_content ->
  load_model w model_name (device_name w) = Returns tt ->
  normalize text_content = [] ->
  main w (Some path)
  = ([Print (of_string "Using device: "%string ++ device_name w);
      Print (of_string "Loading TTS model..."%string);
      LoadModel model_name (device_name w);
      Print (of_string "Processing file: "%string ++ path);
      Print (of_string "Error: No content to process"%string)],
     Returns tt).
Proof.
  intros Hne E Hload Hn. unfold main. fold (device_name w).
  do 2 (rewrite bind_print; cbv beta).
  rewrite Hload, bind_call_returns. cbv beta.
  rewrite (from_file_read w path text_content Hne E), bind_returns.
  cbn [ret bind app].
  rewrite (sanitize_nil text_content 100 300 Hn). reflexivity.
Qed.

Lemma blank_file_not_synthesized_witness :
  main blank_world (Some (of_string "blank.txt"%string))
  = ([Print (of_string "Using device: cpu"%string);
      Print (of_string "Loading TTS model..."%string);
      LoadModel model_name (of_string "cpu"%string);
      Print (of_string "Processing file: blank.txt"%string);
      Print (of_string "Error: No content to process"%string)],
     Returns tt).
Proof.
  apply (blank_file_not_synthesized blank_world
           (of_string "blank.txt"%string) blank_input).
  - discriminate.
  - reflexivity.
  - reflexivity.
  - vm_compute. reflexivity.
Defined.

(** X14.  A failure while reading that is not an error of the operating system
    (a file that is not valid UTF-8, say) is not followed by the example
    text: the script reports it and synthesizes nothing. *)
Theorem unreadable_file_aborts w (prog path : str) rest (msg : str) :
  path <> [] ->
  open_and_read w path = Raises (OtherException msg) ->
  load_model w model_name (device_name w) = Returns tt ->
  script w (prog :: path :: rest)
  = [Print (of_string "Using device: "%string ++ device_name w);
     Print (of_string "Loading TTS model..."%string);
     LoadModel model_name (device_name w);
     Print (of_string "An error occurred: "%string ++ msg)].
Proof.
  intros Hne E Hload. unfold script, main. fold (device_name w).
  do 2 (rewrite bind_print; cbv beta).
  rewrite Hload, bind_call_returns. cbv beta.
  rewrite (from_file_other w path _ Hne E eq_refl), bind_raises.
  reflexivity.
Qed.

Lemma unreadable_file_aborts_witness :
  script binary_world [of_string "main.py"%string; of_string "a.bin"%string]
  = [Print (of_string "Using device: cpu"%string);
     Print (of_string "Loading TTS model..."%string);
     LoadModel model_name (of_string "cpu"%string);
     Print (of_string "An error occurred: invalid start byte"%string)].
Proof.
  apply (unreadable_file_aborts binary_world (of_string "main.py"%string)
           (of_string "a.bin"%string) [] (of_string "invalid start byte"%string)).
  - discriminate.
  - reflexivity.
  - reflexivity.
Defined.

Lemma synthesis_request_well_formed_witness :
  let text := sanitize_and_prepare_text_for_llm short_long_short 100 300 in
  let file := of_string "story.wav"%string in
  let run := main story_world (Some (of_string "story.txt"%string)) in
  In (text, file) (requests (fst run))
  /\ requests (fst run) = [(text, file)]
  /\ text <> []
  /\ Forall (fun c => printable c = true \/ c = NL) text
  /\ (forall a b, text <> a ++ NL :: NL :: b)
  /\ (forall r, text <> NL :: r)
  /\ (forall r, text <> r ++ [NL])
  /\ exists stem, file = stem ++ of_string ".wav"%string /\ ~ In DOT stem.
Proof.
  intros text file run.
  assert (In (text, file) (requests (fst run))) as Hin
      by (left; vm_compute; reflexivity).
  split; [exact Hin|].
  exact (synthesis_request_well_formed story_world _ text file Hin).
Defined.

(** ** How far a chunk can overshoot *)

Module BoundFacts.
Import Py StripFacts ShapeFacts PackFacts ChunkFacts.

Lemma text_of_chunk_text g :
  g <> [] -> Forall tidy (sentences_of g) ->
  len (text_of g) = len (chunk_text g) + 1.
Proof.
  intros Hne Ht. rewrite (chunk_text_join g Ht), (text_of_join g Hne).
  rewrite len_app. reflexivity.
Qed.

Section Bounds.

Variables min_chars max_chars longest : Z.
Hypothesis min_nonneg : 0 <= min_chars.
Hypothesis longest_nonneg : 0 <= longest.

Let fine (e : entry) : Prop := tidy (snd e) /\ len (snd e) <= longest.

Let limit : Z := Z.max max_chars (min_chars + longest + 1).

Lemma trace_limit ss :
  Forall (fun g => Forall fine g -> g = [] \/ len (text_of g) <= limit)
         (closed (trace min_chars max_chars ss)
          ++ [open (trace min_chars max_chars ss)]).
Proof.
  apply TagFacts.trace_all. apply trace_invariant; unfold limit.
  - auto.
  - intros g s _ _ Hfit _. right. rewrite len_text_of_snoc. simpl. lia.
  - intros g s _ _ _ _. split; [exact I|]. intros Hf. right.
    inversion Hf as [|? ? [_ Hs] _]; subst. simpl in Hs.
    rewrite text_of_single, len_app. simpl snd. change (len [SP]) with 1. lia.
  - intros g s Hg _ _ Hmin Hf. right.
    apply Forall_app in Hf. destruct Hf as [Hfg Hfs].
    inversion Hfs as [|? ? [_ Hs] _]; subst. simpl in Hs.
    rewrite len_text_of_snoc. simpl snd.
    destruct g as [|e g]; [change (len (text_of [])) with 0; lia|].
    assert (Forall tidy (sentences_of (e :: g))) as Ht.
    { unfold sentences_of. apply Forall_map.
      eapply Forall_impl; [|exact Hfg]. intros x [Hx _]. exact Hx. }
    rewrite (text_of_chunk_text (e :: g)) by (try discriminate; exact Ht).
    lia.
Qed.

End Bounds.

End BoundFacts.

(** X15.  No chunk is longer than [max_chars - 1] or than [min_chars] plus the
    longest sentence, whichever is larger: the force-merge branch adds
    one sentence to less than [min_chars] characters, and a sentence that
    starts a chunk stands alone until the next one no longer fits. *)
Theorem chunk_length_bound text min_chars max_chars longest :
  0 <= min_chars -> 0 <= longest ->
  Forall (fun s => len s <= longest)
         (filter nonblank (Py.split_sentences (normalize text))) ->
  Forall (fun chunk => len chunk <= Z.max (max_chars - 1) (min_chars + longest))
         (chunks text min_chars max_chars).
Proof.
  intros Hmin Hl Hs. rewrite <- groups_chunks. apply Forall_map, Forall_forall.
  intros g Hg. apply in_groups in Hg.
  pose proof (BoundFacts.trace_limit min_chars max_chars longest Hmin
                (Py.split_sentences (normalize text))) as H.
  rewrite Forall_forall in H. specialize (H g Hg).
  pose proof (group_tidy text min_chars max_chars g Hg) as Ht.
  destruct g as [|e g]; [change (len (chunk_text [])) with 0; lia|].
  assert (e :: g <> []) as Hne by discriminate.
  pose proof (BoundFacts.text_of_chunk_text (e :: g) Hne Ht) as El.
  destruct H as [E | Hle]; [|discriminate|lia].
  apply Forall_forall. intros x Hx. split.
  - rewrite Forall_forall in Ht. apply Ht. apply in_map, Hx.
  - rewrite Forall_forall in Hs. apply Hs.
    apply (group_sentences_in text min_chars max_chars _ Hg).
    apply in_map, Hx.
Qed.

Lemma chunk_length_bound_witness :
  0 <= 5 /\ 0 <= 21
  /\ Forall (fun s => len s <= 21)
            (filter nonblank
                    (Py.split_sentences (normalize short_long_short)))
  /\ Forall (fun chunk => len chunk <= Z.max (10 - 1) (5 + 21))
            (chunks short_long_short 5 10).
Proof.
  assert (Forall (fun s => len s <= 21)
            (filter nonblank
                    (Py.split_sentences (normalize short_long_short)))) as Hs
      by (vm_compute; repeat constructor; discriminate).
  split; [lia|]. split; [lia|]. split; [exact Hs|].
  apply (chunk_length_bound short_long_short 5 10 21); [lia | lia | exact Hs].
Defined.
